(** * sizer: a shallow embedding of [main.go]

    The development follows the three functions of the program:
    [formatBytes] (the byte formatter), [sizeDir] (the subtree sizer, a
    callback handed to [filepath.WalkDir]) and [listRootWithSizes] (the root
    lister and aggregator).

    - Go's [int64] and [int] are integers of [Z] with the wrap-around written
      out ([wrap64]); [int] is taken at its 64-bit width.
    - The file system is a tree of directory entries carrying what the
      program can observe of them: name, type bits, and the outcome of
      [Info()], of [os.Lstat] and of [os.ReadDir].
    - [filepath.WalkDir], [sort.Slice] and the conversions of [fmt] and of
      [float64] belong to the Go standard library; they are written after
      their documented behaviour.
    - The worker pool is modelled by its observable effect: the
      per-directory results reach the aggregator in an arbitrary order
      ([runtime.NumCPU] is at least 1, so every directory is served).
    - The progress lines written to the terminal do not enter any result
      and are left out. *)

From Stdlib Require Import ZArith List String Ascii Bool Lia.
From Stdlib Require Import Permutation Sorted DecimalString.
From Stdlib Require Import Floats.SpecFloat.
From Equations Require Import Equations.
Import ListNotations.

Set Warnings "-register-all".
Open Scope Z_scope.

(* ===================================================================== *)
(** * Machine integers *)
(* ===================================================================== *)

Definition min_int64 : Z := - 2 ^ 63.
Definition max_int64 : Z := 2 ^ 63 - 1.

Definition in_int64 (z : Z) : Prop := min_int64 <= z <= max_int64.

(** Two's complement wrap-around of a 64-bit signed result. *)
Definition wrap64 (z : Z) : Z := (z + 2 ^ 63) mod 2 ^ 64 - 2 ^ 63.

(** [fmt.Sprintf("%d", z)]. *)
Definition string_of_Z (z : Z) : string := NilZero.string_of_int (Z.to_int z).

(** [s[i]] on a Go string: [None] stands for the index-out-of-range panic. *)
Definition index_string (s : string) (i : Z) : option ascii :=
  if i <? 0 then None else String.get (Z.to_nat i) s.

(* ===================================================================== *)
(** * binary64 values, as far as [formatBytes] uses them *)
(* ===================================================================== *)

Module Float64.

(** A finite binary64 value [mant * 2 ^ expo].  The operations below round
    to nearest, ties to even, at 53 significant bits; exponent overflow and
    subnormals are out of reach of the magnitudes formed from an [int64]
    and a power of 1024. *)
Record t : Set := mk { mant : Z; expo : Z }.

(** [n / d] rounded to the nearest integer, ties to even ([0 < d]). *)
Definition round_half_even (n d : Z) : Z :=
  let q := n / d in
  let r := n mod d in
  match 2 * r ?= d with
  | Lt => q
  | Gt => q + 1
  | Eq => if Z.even q then q else q + 1
  end.

(** Numerator and denominator of [a / (d * 2 ^ e)]. *)
Definition scaled (a d e : Z) : Z * Z :=
  if 0 <=? e then (a, d * 2 ^ e) else (a * 2 ^ (- e), d).

(** The rational [n / d] ([0 < d]) rounded to 53 significant bits. *)
Definition round53 (n d : Z) : t :=
  let a := Z.abs n in
  if a =? 0 then mk 0 0
  else
    let e0 := Z.log2 a - Z.log2 d - 53 in
    let '(n0, d0) := scaled a d e0 in
    let e := if 2 ^ 53 <=? n0 / d0 then e0 + 1 else e0 in
    let '(n1, d1) := scaled a d e in
    mk (Z.sgn n * round_half_even n1 d1) e.

(** The conversion [float64(z)] of an integer. *)
Definition of_int64 (z : Z) : t := round53 z 1.

(** The quotient [x / y] of two values, [y] not zero. *)
Definition div (x y : t) : t :=
  let '(nx, dx) := scaled (mant x) 1 (- expo x) in
  let '(ny, dy) := scaled (mant y) 1 (- expo y) in
  round53 (Z.sgn ny * nx * dy) (dx * Z.abs ny).

(** The value times ten, rounded to an integer: the digits of ["%.1f"]. *)
Definition tenths (x : t) : Z :=
  let '(n, d) := scaled (10 * Z.abs (mant x)) 1 (- expo x) in
  round_half_even n d.

(** [fmt.Sprintf("%.1f", x)]. *)
Definition format_1f (x : t) : string :=
  let sign := if mant x <? 0 then "-"%string else ""%string in
  let whole := string_of_Z (tenths x / 10) in
  let frac := string_of_Z (tenths x mod 10) in
  (sign ++ whole ++ "." ++ frac)%string.

(** Agreement of a value with one of the Standard Library's IEEE 754
    model, used to cross-check the operations above. *)
Definition same_value (f : spec_float) (x : t) : bool :=
  match f with
  | S754_zero _ => mant x =? 0
  | S754_finite s m e =>
      let v := if s then Z.neg m else Z.pos m in
      let '(n1, d1) := scaled v 1 (- e) in
      let '(n2, d2) := scaled (mant x) 1 (- expo x) in
      n1 * d2 =? n2 * d1
  | _ => false
  end.

Definition sf_of_int64 (z : Z) : spec_float := binary_normalize 53 1024 z 0 false.
Definition sf_div (x y : spec_float) : spec_float := SFdiv 53 1024 x y.

End Float64.

(* ===================================================================== *)
(** * [formatBytes] *)
(* ===================================================================== *)

Definition unit : Z := 1024.

(** The loop [for n := b / unit; n >= unit; n /= unit { div *= unit; exp++ }],
    returning the final [div] and [exp]. *)
Equations? scaleLoop (n div exp : Z) : Z * Z by wf (Z.to_nat (Z.log2 n)) lt :=
  scaleLoop n div exp with Z_le_dec unit n := {
    | left _ := scaleLoop (n ÷ unit) (wrap64 (div * unit)) (wrap64 (exp + 1));
    | right _ := (div, exp) }.
Proof.
  unfold unit in *.
  rewrite Z.quot_div_nonneg by lia.
  change 1024 with (2 ^ 10).
  rewrite <- Z.shiftr_div_pow2 by lia.
  rewrite Z.log2_shiftr by lia.
  assert (Z.log2 (2 ^ 10) <= Z.log2 n) by (apply Z.log2_le_mono; lia).
  rewrite Z.log2_pow2 in H by lia.
  lia.
Qed.

Definition suffixes : string := "KMGTPE".

(** [formatBytes]; [None] is the run-time panic of an index out of range. *)
Definition formatBytes (b : Z) : option string :=
  if b <? unit then Some (string_of_Z b ++ " B")%string
  else
    let '(div, exp) := scaleLoop (b ÷ unit) unit 0 in
    match index_string suffixes exp with
    | None => None
    | Some c =>
        Some (Float64.format_1f (Float64.div (Float64.of_int64 b) (Float64.of_int64 div))
                ++ " " ++ String c "B")%string
    end.

(* ===================================================================== *)
(** * The file system as the program observes it *)
(* ===================================================================== *)

(** Go [error] values: the two sentinels of [path/filepath], the errors of
    the operating system, and the run-time panic of a call through a nil
    [fs.DirEntry]. *)
Inductive error : Set :=
| SkipDir
| SkipAll
| ErrPermission
| ErrNotExist
| ErrNotDir
| PanicNilEntry.

(** The type bits of [fs.FileMode] other than [ModeDir], which is the
    constructor [Dir] below. *)
Inductive FileMode : Set :=
| ModeRegular
| ModeSymlink
| ModeNamedPipe
| ModeSocket
| ModeDevice.

(** A directory entry together with what lies beneath it.
    - [File name mode info]: a non-directory; [info] is the outcome of
      [Info()] (an [lstat], never following a link): [Some size], or [None]
      when it fails.
    - [Dir name lstat readdir children]: a directory; [lstat] is the error of
      [os.Lstat] on it, [readdir] the error of [os.ReadDir] on it, and
      [children] the entries [os.ReadDir] returns (those read before the
      error, when there is one). *)
Inductive Node : Set :=
| File (name : string) (mode : FileMode) (info : option Z)
| Dir (name : string) (lstat : option error) (readdir : option error)
      (children : list Node).

(** The methods of [fs.DirEntry] and the system calls on a path. *)
Module DirEntry.

Definition Name (d : Node) : string :=
  match d with File name _ _ => name | Dir name _ _ _ => name end.

Definition IsDir (d : Node) : bool :=
  match d with File _ _ _ => false | Dir _ _ _ _ => true end.

(** The program calls [Info()] on non-directories only; the model gives a
    directory no size. *)
Definition Info (d : Node) : option Z :=
  match d with File _ _ info => info | Dir _ _ _ _ => None end.

(** [d.Type() & os.ModeSymlink != 0]. *)
Definition IsSymlink (d : Node) : bool :=
  match d with File _ ModeSymlink _ => true | _ => false end.

(** [os.Lstat(path)]: the error, if any. *)
Definition Lstat (d : Node) : option error :=
  match d with
  | File _ _ (Some _) => None
  | File _ _ None => Some ErrNotExist
  | Dir _ lstat _ _ => lstat
  end.

(** [os.ReadDir(path)]: the entries read and the error, if any. *)
Definition ReadDir (d : Node) : list Node * option error :=
  match d with
  | File _ _ _ => ([], Some ErrNotDir)
  | Dir _ _ readdir children => (children, readdir)
  end.

End DirEntry.

(** [len(name) > 0 && name[0] == '.'] *)
Definition isHidden (name : string) : bool :=
  match name with
  | EmptyString => false
  | String c _ => Ascii.eqb c "."
  end.

(* ===================================================================== *)
(** * [filepath.WalkDir] *)
(* ===================================================================== *)

(** A [fs.WalkDirFunc] with its captured variables passed as a state [St].
    Of [path] the callbacks of this program read the last element only, so the
    first argument is [filepath.Base(path)]: the name of the entry. *)
Definition WalkDirFunc (St : Type) : Type :=
  string -> option Node -> option error -> St -> St * option error.

Definition isSkipDir (e : error) : bool :=
  match e with SkipDir => true | _ => false end.

Definition isSkipAll (e : error) : bool :=
  match e with SkipAll => true | _ => false end.

Section WalkDir.

Context {St : Type} (fn : WalkDirFunc St).

(** What [walkDir] returns after a callback reported [e] on [d]. *)
Definition afterCallback (d : Node) (e : error) : option error :=
  if isSkipDir e && DirEntry.IsDir d then None else Some e.

(** [walkDir(path, d, fn)] of [path/filepath]: the callback on the entry; for
    a directory the listing, a failure of which goes to the callback in a
    second call; then the entries in turn, [SkipDir] from one of them ending
    the loop. *)
Fixpoint walkDir (d : Node) (s : St) {struct d} : St * option error :=
  let '(s1, err) := fn (DirEntry.Name d) (Some d) None s in
  match err with
  | Some e => (s1, afterCallback d e)
  | None =>
      match d with
      | File _ _ _ => (s1, None)
      | Dir _ _ readdir dirs =>
          let '(s2, err2) :=
            match readdir with
            | None => (s1, None)
            | Some e => fn (DirEntry.Name d) (Some d) (Some e) s1
            end in
          match err2 with
          | Some e => (s2, afterCallback d e)
          | None =>
              (fix walkDirs (ds : list Node) (s : St) {struct ds} : St * option error :=
                 match ds with
                 | [] => (s, None)
                 | d1 :: rest =>
                     let '(s', err1) := walkDir d1 s in
                     match err1 with
                     | None => walkDirs rest s'
                     | Some e => if isSkipDir e then (s', None) else (s', Some e)
                     end
                 end) dirs s2
          end
      end
  end.

(** The loop of [walkDir] over the entries of a directory. *)
Fixpoint walkDirs (ds : list Node) (s : St) {struct ds} : St * option error :=
  match ds with
  | [] => (s, None)
  | d1 :: rest =>
      let '(s', err1) := walkDir d1 s in
      match err1 with
      | None => walkDirs rest s'
      | Some e => if isSkipDir e then (s', None) else (s', Some e)
      end
  end.

(** [filepath.WalkDir(root, fn)]: when the [lstat] of the root fails the
    callback is called once with a nil entry and the error. *)
Definition WalkDir (root : Node) (s : St) : St * option error :=
  let '(s', err) :=
    match DirEntry.Lstat root with
    | Some e => fn (DirEntry.Name root) None (Some e) s
    | None => walkDir root s
    end in
  match err with
  | Some e => if isSkipDir e || isSkipAll e then (s', None) else (s', Some e)
  | None => (s', None)
  end.

End WalkDir.

(* ===================================================================== *)
(** * [sizeDir] *)
(* ===================================================================== *)

(** The closure passed to [filepath.WalkDir]; its state is [(total, count)].
    [WalkDir] hands it a nil entry only together with an error; the call
    through a nil entry, which would panic, is kept as [PanicNilEntry]. *)
Definition sizeDirFn (showAll : bool) : WalkDirFunc (Z * Z) :=
  fun name d err st =>
    let '(total, count) := st in
    match err with
    | Some _ => (st, None)
    | None =>
        match d with
        | None => (st, Some PanicNilEntry)
        | Some d =>
            if negb showAll && isHidden name then
              if DirEntry.IsDir d then (st, Some SkipDir) else (st, None)
            else if DirEntry.IsDir d then (st, None)
            else if DirEntry.IsSymlink d then ((total, wrap64 (count + 1)), None)
            else
              match DirEntry.Info d with
              | None => (st, None)
              | Some size => ((wrap64 (total + size), wrap64 (count + 1)), None)
              end
        end
    end.

(** [sizeDir(root, showAll)]: total, count and error. *)
Definition sizeDir (root : Node) (showAll : bool) : Z * Z * option error :=
  let '((total, count), err) := WalkDir (sizeDirFn showAll) root (0, 0) in
  (total, count, err).

(* ===================================================================== *)
(** * [listRootWithSizes] *)
(* ===================================================================== *)

Record Entry : Set := mkEntry {
  Name : string;
  Size : Z;
  Type_ : string (* "file" or "dir" *)
}.

Record dirResult : Set := mkDirResult {
  entry : Entry;
  size : Z;
  count : Z;
  err : option error
}.

(** A strict weak ordering, what [sort.Slice] asks of its [less]. *)
Definition strictWeakOrder {A : Type} (less : A -> A -> bool) : Prop :=
  (forall a, less a a = false) /\
  (forall a b c, less a b = true -> less b c = true -> less a c = true) /\
  (forall a b c, less a b = false -> less b c = false -> less a c = false).

(** [sort.Slice] of the Go standard library, by its documented contract: the
    slice is permuted so that no element is [less] than the one before it;
    the order of equal elements is not specified. *)
Class SortSlice : Type := {
  sortSlice : (Entry -> Entry -> bool) -> list Entry -> list Entry;
  sortSlice_perm : forall less l, Permutation l (sortSlice less l);
  sortSlice_sorted : forall less l,
    strictWeakOrder less ->
    Sorted (fun a b => less b a = false) (sortSlice less l)
}.

(** The worker pool and the result channel, by their observable effect: each
    directory sent to [dirCh] yields exactly one result on [results], and the
    results are received in the order of completion, which is any order. *)
Class Scheduler : Type := {
  deliver : list dirResult -> list dirResult;
  deliver_perm : forall l, Permutation l (deliver l)
}.

(** The insertion sort [sort.Slice] runs on slices of at most twelve
    elements: each element moves left past the elements it is [less] than. *)
Fixpoint insertSorted (less : Entry -> Entry -> bool) (x : Entry) (l : list Entry)
  : list Entry :=
  match l with
  | [] => [x]
  | y :: l' => if less x y then x :: y :: l' else y :: insertSorted less x l'
  end.

Definition insertionSort (less : Entry -> Entry -> bool) (l : list Entry) : list Entry :=
  fold_left (fun sorted x => insertSorted less x sorted) l [].

(** The state of the first loop: [entries], [totalSize], [totalCount], [dirs]. *)
Record rootState : Set := mkRootState {
  entries : list Entry;
  totalSize : Z;
  totalCount : Z;
  dirs : list Node
}.

(** One iteration of [for _, dirEntry := range dirEntries]. *)
Definition classify (showAll : bool) (st : rootState) (dirEntry : Node) : rootState :=
  if negb showAll && isHidden (DirEntry.Name dirEntry) then st
  else if DirEntry.IsDir dirEntry then
    mkRootState (entries st) (totalSize st) (totalCount st) (dirs st ++ [dirEntry])
  else
    match DirEntry.Info dirEntry with
    | None => st
    | Some sz =>
        mkRootState
          (entries st ++ [mkEntry (DirEntry.Name dirEntry) sz "file"])
          (wrap64 (totalSize st + sz))
          (wrap64 (totalCount st + 1))
          (dirs st)
    end.

(** The body of a worker for one directory taken from [dirCh]. *)
Definition worker (showAll : bool) (dirEntry : Node) : dirResult :=
  let '(sz, cnt, e) := sizeDir dirEntry showAll in
  mkDirResult (mkEntry (DirEntry.Name dirEntry) sz "dir") sz cnt e.

(** One iteration of [for result := range results]. *)
Definition collect (st : rootState) (result : dirResult) : rootState :=
  match err result with
  | Some _ => st
  | None =>
      mkRootState
        (entries st ++ [entry result])
        (wrap64 (totalSize st + size result))
        (wrap64 (totalCount st + count result))
        (dirs st)
  end.

(** The [less] of the final sort: [entries[i].Size > entries[j].Size]. *)
Definition bySizeDesc (a b : Entry) : bool := Size a >? Size b.

Section ListRoot.

Context {sorter : SortSlice} {pool : Scheduler}.

(** [listRootWithSizes(root, showAll)]: entries, total size, total count
    and error. *)
Definition listRootWithSizes (root : Node) (showAll : bool)
  : list Entry * Z * Z * option error :=
  match DirEntry.ReadDir root with
  | (_, Some e) => ([], 0, 0, Some e)
  | (dirEntries, None) =>
      let st := fold_left (classify showAll) dirEntries (mkRootState [] 0 0 []) in
      let st' :=
        if (0 <? List.length (dirs st))%nat then
          fold_left collect (deliver (map (worker showAll) (dirs st))) st
        else st in
      (sortSlice bySizeDesc (entries st'), totalSize st', totalCount st', None)
  end.

End ListRoot.

(** The components of the result. *)
Definition resEntries (r : list Entry * Z * Z * option error) : list Entry :=
  let '(es, _, _, _) := r in es.
Definition resTotalSize (r : list Entry * Z * Z * option error) : Z :=
  let '(_, ts, _, _) := r in ts.
Definition resTotalCount (r : list Entry * Z * Z * option error) : Z :=
  let '(_, _, tc, _) := r in tc.
Definition resErr (r : list Entry * Z * Z * option error) : option error :=
  let '(_, _, _, e) := r in e.

(* ===================================================================== *)
(** * Reference measures on a tree *)
(* ===================================================================== *)

Definition Zsum (l : list Z) : Z := fold_right Z.add 0 l.

(** The hidden-name policy: an entry is left out when hidden entries are not
    asked for and its name starts with a period. *)
Definition excluded (showAll : bool) (name : string) : bool :=
  negb showAll && isHidden name.

(** The sum of [leaf] over the non-directories of a subtree, a left-out
    directory pruning everything beneath it. *)
Fixpoint measureTree (leaf : Node -> Z) (showAll : bool) (d : Node) {struct d} : Z :=
  match d with
  | File name _ _ => if excluded showAll name then 0 else leaf d
  | Dir name _ _ children =>
      if excluded showAll name then 0
      else Zsum (map (measureTree leaf showAll) children)
  end.

(** What one immediate child of the root contributes: [topLeaf] for a
    non-directory, and for a directory the sum of [leaf] beneath it, nothing
    being reachable beneath a directory that cannot be [lstat]ed. *)
Definition measureChild (topLeaf leaf : Node -> Z) (showAll : bool) (d : Node) : Z :=
  if excluded showAll (DirEntry.Name d) then 0
  else if DirEntry.IsDir d then
    match DirEntry.Lstat d with
    | Some _ => 0
    | None => measureTree leaf showAll d
    end
  else topLeaf d.

Definition measureRoot (topLeaf leaf : Node -> Z) (showAll : bool) (root : Node) : Z :=
  Zsum (map (measureChild topLeaf leaf showAll) (fst (DirEntry.ReadDir root))).

(** The size [Info()] reports, nothing when it fails. *)
Definition infoSize (d : Node) : Z :=
  match DirEntry.Info d with Some sz => sz | None => 0 end.

(** One for an entry whose [Info()] succeeds. *)
Definition infoCount (d : Node) : Z :=
  match DirEntry.Info d with Some _ => 1 | None => 0 end.

(** Bytes and count of a non-directory met by the walk of [sizeDir]. *)
Definition walkedBytes (d : Node) : Z :=
  if DirEntry.IsSymlink d then 0 else infoSize d.

Definition walkedCount (d : Node) : Z :=
  if DirEntry.IsSymlink d then 1 else infoCount d.

(** The size of a regular file, nothing for anything else. *)
Definition regularSize (d : Node) : Z :=
  match d with
  | File _ ModeRegular (Some sz) => sz
  | _ => 0
  end.

(** One for a regular file and for a symbolic link. *)
Definition fileLike (d : Node) : Z :=
  match d with
  | File _ ModeRegular _ => 1
  | File _ ModeSymlink _ => 1
  | _ => 0
  end.

(** The totals as the specification words them: the bytes of the regular
    files, and the number of regular files and symbolic links. *)
Definition specTotalSize (showAll : bool) (root : Node) : Z :=
  measureRoot regularSize regularSize showAll root.

Definition specTotalCount (showAll : bool) (root : Node) : Z :=
  measureRoot fileLike fileLike showAll root.

(** The totals as the code forms them, before wrap-around. *)
Definition codeTotalSize (showAll : bool) (root : Node) : Z :=
  measureRoot infoSize walkedBytes showAll root.

Definition codeTotalCount (showAll : bool) (root : Node) : Z :=
  measureRoot infoCount walkedCount showAll root.

(** A directory the walk cannot even start on: its [lstat] fails, or reading
    it fails with no entry read. *)
Definition unwalkable (d : Node) : bool :=
  match d with
  | Dir _ (Some _) _ _ => true
  | Dir _ None (Some _) [] => true
  | _ => false
  end.

(** An entry below the walk's root that raises an I/O error: a file whose
    [Info()] fails where the walk calls it, or a directory that cannot be
    read at all. *)
Definition failing (d : Node) : bool :=
  match d with
  | File _ mode None => negb (DirEntry.IsSymlink d)
  | Dir _ _ (Some _) [] => true
  | _ => false
  end.

(** The tree without its failing entries, at every depth. *)
Fixpoint dropFailing (d : Node) {struct d} : Node :=
  match d with
  | File _ _ _ => d
  | Dir name lstat readdir children =>
      Dir name lstat readdir
        ((fix keep (cs : list Node) : list Node :=
            match cs with
            | [] => []
            | c :: rest => if failing c then keep rest else dropFailing c :: keep rest
            end) children)
  end.

Fixpoint dropFailingList (cs : list Node) : list Node :=
  match cs with
  | [] => []
  | c :: rest =>
      if failing c then dropFailingList rest else dropFailing c :: dropFailingList rest
  end.

(** Every non-directory of the tree satisfies [p]. *)
Fixpoint allFiles (p : Node -> bool) (d : Node) {struct d} : bool :=
  match d with
  | File _ _ _ => p d
  | Dir _ _ _ children => forallb (allFiles p) children
  end.

(** A regular file or a symbolic link. *)
Definition regularOrLink (d : Node) : bool :=
  match d with
  | File _ ModeRegular _ => true
  | File _ ModeSymlink _ => true
  | _ => false
  end.

(** A regular file, a symbolic link, or a special file of size 0, as pipes,
    sockets and devices report it on the usual platforms. *)
Definition sizedAsSpecified (d : Node) : bool :=
  regularOrLink d || (infoSize d =? 0).

(** A regular file or a symbolic link whose [Info()] succeeds. *)
Definition readableFile (d : Node) : bool :=
  regularOrLink d && match DirEntry.Info d with Some _ => true | None => false end.

(** No non-directory at all. *)
Definition noFile (d : Node) : bool := allFiles (fun _ => false) d.

(** The first loop of [listRootWithSizes] in closed form: the immediate
    children it lists as files, and those it hands to the workers. *)
Definition listedFile (showAll : bool) (d : Node) : bool :=
  negb (excluded showAll (DirEntry.Name d)) && negb (DirEntry.IsDir d)
  && match DirEntry.Info d with Some _ => true | None => false end.

Definition fileEntry (d : Node) : Entry :=
  mkEntry (DirEntry.Name d) (infoSize d) "file".

Definition fileEntries (showAll : bool) (ch : list Node) : list Entry :=
  map fileEntry (filter (listedFile showAll) ch).

Definition isSubdir (showAll : bool) (d : Node) : bool :=
  negb (excluded showAll (DirEntry.Name d)) && DirEntry.IsDir d.

Definition subdirs (showAll : bool) (ch : list Node) : list Node :=
  filter (isSubdir showAll) ch.

(** The measure of the subtree of an immediate subdirectory, nothing when
    the directory cannot be [lstat]ed. *)
Definition measureDir (leaf : Node -> Z) (showAll : bool) (d : Node) : Z :=
  match DirEntry.Lstat d with
  | Some _ => 0
  | None => measureTree leaf showAll d
  end.

(** The entry of a directory result. *)
Definition dirEntryOf (showAll : bool) (d : Node) : Entry :=
  mkEntry (DirEntry.Name d) (wrap64 (measureDir walkedBytes showAll d)) "dir".

(** The entries before the final sort: the listed files in directory order,
    then the directory entries in the order their results arrive. *)
Definition gathered {pool : Scheduler} (showAll : bool) (ch : list Node) : list Entry :=
  fileEntries showAll ch ++ map entry (deliver (map (worker showAll) (subdirs showAll ch))).

(* ===================================================================== *)
(** * Instances of the sort and of the pool, and sample trees *)
(* ===================================================================== *)

(** [sort.Slice] as it runs on short slices. *)
Definition insertionSorter : SortSlice.
Proof.
  refine (Build_SortSlice insertionSort _ _).
  - intros less l. unfold insertionSort.
    assert (Hins : forall x l', Permutation (x :: l') (insertSorted less x l')).
    { intros x l'. induction l' as [|y l' IH]; cbn.
      - apply Permutation_refl.
      - destruct (less x y).
        + apply Permutation_refl.
        + apply perm_trans with (y :: x :: l'); [apply perm_swap |].
          apply perm_skip, IH. }
    assert (Hfold : forall l' acc,
               Permutation (l' ++ acc)
                 (fold_left (fun sorted x => insertSorted less x sorted) l' acc)).
    { intros l'. induction l' as [|x l' IH]; intros acc; cbn.
      - apply Permutation_refl.
      - eapply perm_trans; [| apply IH].
        eapply perm_trans; [apply Permutation_middle |].
        apply Permutation_app_head, Hins. }
    rewrite <- (app_nil_r l) at 1. apply Hfold.
  - intros less l (Hirr & Htrans & _). unfold insertionSort.
    assert (Hasym : forall a b, less a b = true -> less b a = false).
    { intros a b Hab. destruct (less b a) eqn:Hba; [| reflexivity].
      rewrite <- (Hirr a). symmetry. eapply Htrans; eassumption. }
    assert (Hins : forall x l',
               Sorted (fun a b => less b a = false) l' ->
               Sorted (fun a b => less b a = false) (insertSorted less x l')).
    { intros x l'. induction 1 as [|y l' Hsorted IH Hhd]; cbn.
      - repeat constructor.
      - destruct (less x y) eqn:Hxy.
        + constructor; [constructor; assumption |].
          constructor. apply Hasym, Hxy.
        + constructor; [exact IH |].
          destruct l' as [|z l']; cbn.
          * constructor. exact Hxy.
          * destruct (less x z); constructor; [exact Hxy |].
            inversion Hhd; assumption. }
    assert (Hfold : forall l' acc,
               Sorted (fun a b => less b a = false) acc ->
               Sorted (fun a b => less b a = false)
                 (fold_left (fun sorted x => insertSorted less x sorted) l' acc)).
    { intros l'. induction l' as [|x l' IH]; intros acc Hacc; cbn; [exact Hacc |].
      apply IH, Hins, Hacc. }
    apply Hfold. constructor.
Defined.

(** Results arriving in the order the directories were sent. *)
Definition inOrder : Scheduler :=
  Build_Scheduler (fun rs => rs) (@Permutation_refl dirResult).

(** Results arriving in the opposite order. *)
Definition lastFirst : Scheduler :=
  Build_Scheduler (@rev dirResult) (@Permutation_rev dirResult).

(** The scenario of the specification: [a.txt] (100 bytes), [.hidden.txt]
    (50 bytes) and [sub/] holding [b.txt] (200 bytes) and [.subhidden]
    (10 bytes). *)
Definition scenario : Node :=
  Dir "root" None None
    [ File ".hidden.txt" ModeRegular (Some 50);
      File "a.txt" ModeRegular (Some 100);
      Dir "sub" None None
        [ File ".subhidden" ModeRegular (Some 10);
          File "b.txt" ModeRegular (Some 200) ] ].

(** A root holding one symbolic link whose [lstat] size is 6, the length of
    its target path, and a root holding the same link one level down. *)
Definition rootWithLink : Node :=
  Dir "root" None None [File "link" ModeSymlink (Some 6)].

Definition rootWithNestedLink : Node :=
  Dir "root" None None [Dir "sub" None None [File "link" ModeSymlink (Some 6)]].

(** A root holding a regular file of 100 bytes and a symbolic link whose
    [lstat] size is 4. *)
Definition rootWithFileAndLink : Node :=
  Dir "root" None None
    [File "data" ModeRegular (Some 100); File "link" ModeSymlink (Some 4)].

(** A root with a directory that cannot be opened next to a readable one. *)
Definition rootWithUnreadableDir : Node :=
  Dir "root" None None
    [ Dir "bad" None (Some ErrPermission) [];
      Dir "good" None None [File "f" ModeRegular (Some 5)] ].

(** A root holding one named pipe. *)
Definition rootWithPipe : Node :=
  Dir "root" None None [File "pipe" ModeNamedPipe (Some 0)].

(* ===================================================================== *)
(** * [main] *)
(* ===================================================================== *)

(** One iteration of [for _, arg := range os.Args[1:]]: the state is
    [(target, showAll)]. *)
Definition parseStep (st : string * bool) (arg : string) : string * bool :=
  let '(target, showAll) := st in
  if String.eqb arg "-a" then (target, true)
  else if (String.length target =? 0)%nat then (arg, showAll)
  else st.

(** The argument loop of [main] and the default target; [args] is
    [os.Args[1:]]. *)
Definition parseArgs (args : list string) : string * bool :=
  let '(target, showAll) := fold_left parseStep args (""%string, false) in
  (if String.eqb target "" then "."%string else target, showAll).

(** An argument that can become the target: not the flag, and not empty. *)
Definition isPathArg (arg : string) : bool :=
  negb (String.eqb arg "-a") && negb (String.eqb arg "").

(** What [os.Stat] finds at a path: an error, a non-directory of some size,
    or a directory, given with what lies beneath it. *)
Inductive Target : Set :=
| NotFound (e : error)
| IsFile (fileSize : Z)
| IsDirectory (root : Node).

(** The operating system as [main] uses it: [os.Stat], and [filepath.Abs]
    with [None] for its error. *)
Record World : Set := mkWorld {
  Stat : string -> Target;
  Abs : string -> option string
}.

(** How a run of [main] ends: [log.Fatalf] with its message and error,
    the text written to standard output, or a panic. *)
Inductive Outcome : Set :=
| Fatal (msg : string) (e : error)
| Printed (out : string)
| Panicked.

Definition newline : string := String "010"%char EmptyString.

Definition spaces (n : nat) : string := string_of_list_ascii (repeat " "%char n).

(** The verb ["%-Ns"]: the string, padded with spaces on the right up to
    [width] characters; the strings [main] pads, the type tag and the
    formatted size, are ASCII, one byte to the character. *)
Definition padRight (width : nat) (s : string) : string :=
  (s ++ spaces (width - String.length s))%string.

Definition separator : string := "----------------------------------------".

(** [absPath], with the fall-back to [target]. *)
Definition absPath (w : World) (target : string) : string :=
  match Abs w target with Some p => p | None => target end.

(** The two [Printf] of the single-file branch. *)
Definition fileReport (path : string) (fileSize : Z) : option string :=
  match formatBytes fileSize with
  | None => None
  | Some sz =>
      Some (newline ++ "File: " ++ path ++ newline ++ "Size: " ++ sz ++ newline)%string
  end.

(** [entryType] in the loop over [rootEntries]. *)
Definition entryType (e : Entry) : string :=
  if String.eqb (Type_ e) "file" then "FILE"%string else "DIR"%string.

(** [fmt.Printf("%-6s %-15s %s\n", entryType, formatBytes(entry.Size),
    entry.Name)]. *)
Definition entryLine (e : Entry) : option string :=
  match formatBytes (Size e) with
  | None => None
  | Some sz =>
      Some (padRight 6 (entryType e) ++ " " ++ padRight 15 sz ++ " "
              ++ Name e ++ newline)%string
  end.

(** The loop over [rootEntries]. *)
Fixpoint entryLines (es : list Entry) : option string :=
  match es with
  | [] => Some ""%string
  | e :: rest =>
      match entryLine e with
      | None => None
      | Some line =>
          match entryLines rest with
          | None => None
          | Some lines => Some (line ++ lines)%string
          end
      end
  end.

(** Everything [main] prints for a directory. *)
Definition dirReport (path : string) (rootEntries : list Entry) (totalSize totalCount : Z)
  : option string :=
  match entryLines rootEntries with
  | None => None
  | Some lines =>
      match formatBytes totalSize with
      | None => None
      | Some total =>
          Some (newline ++ "Contents of: " ++ path ++ newline
                  ++ separator ++ newline
                  ++ lines
                  ++ separator ++ newline
                  ++ "TOTAL: " ++ total ++ " (" ++ string_of_Z totalCount ++ " files)"
                  ++ newline)%string
      end
  end.

Definition printed (report : option string) : Outcome :=
  match report with Some out => Printed out | None => Panicked end.

Section Main.

Context {sorter : SortSlice} {pool : Scheduler}.

(** [main], on the arguments after the program name.  The transient progress
    text of the scan, erased by its last write, is left out as before. *)
Definition main (w : World) (args : list string) : Outcome :=
  let '(target, showAll) := parseArgs args in
  match Stat w target with
  | NotFound e => Fatal "error accessing target" e
  | IsFile fileSize => printed (fileReport (absPath w target) fileSize)
  | IsDirectory root =>
      match listRootWithSizes root showAll with
      | (_, _, _, Some e) => Fatal "error walking" e
      | (rootEntries, totalSize, totalCount, None) =>
          printed (dirReport (absPath w target) rootEntries totalSize totalCount)
      end
  end.

End Main.

(** The numerator and the denominator of a binary64 value, as [Float64.div]
    and [Float64.tenths] form them. *)
Definition fnum (x : Float64.t) : Z :=
  fst (Float64.scaled (Float64.mant x) 1 (- Float64.expo x)).

Definition fden (x : Float64.t) : Z :=
  snd (Float64.scaled (Float64.mant x) 1 (- Float64.expo x)).

(** The integer nearest to [b] among those with 53 significant bits, ties
    to the even one: the value of [float64(b)] for [0 <= b], written in
    integers.  Below [2 ^ 53] it is [b] itself. *)
Definition nearestFloat64 (b : Z) : Z :=
  if b <? 2 ^ 53 then b
  else
    let s := Z.log2 b - 52 in
    2 ^ s * ((b + 2 ^ (s - 1) - (if Z.even (b / 2 ^ s) then 1 else 0)) / 2 ^ s).

(** The tree without its hidden entries, at every depth. *)
Fixpoint stripHidden (d : Node) {struct d} : Node :=
  match d with
  | File _ _ _ => d
  | Dir name lstat readdir children =>
      Dir name lstat readdir
        ((fix strip (cs : list Node) : list Node :=
            match cs with
            | [] => []
            | c :: rest =>
                if isHidden (DirEntry.Name c) then strip rest
                else stripHidden c :: strip rest
            end) children)
  end.

Fixpoint stripHiddenList (cs : list Node) : list Node :=
  match cs with
  | [] => []
  | c :: rest =>
      if isHidden (DirEntry.Name c) then stripHiddenList rest
      else stripHidden c :: stripHiddenList rest
  end.

(** The immediate children that get an entry, and the entry of each. *)
Definition listed (showAll : bool) (d : Node) : bool :=
  negb (excluded showAll (DirEntry.Name d))
  && (DirEntry.IsDir d || match DirEntry.Info d with Some _ => true | None => false end).

Definition entryOfChild (showAll : bool) (d : Node) : Entry :=
  if DirEntry.IsDir d then dirEntryOf showAll d else fileEntry d.

(** Every size [Info()] reports in the tree is not negative. *)
Definition sizesNonneg (d : Node) : bool := allFiles (fun f => 0 <=? infoSize f) d.

(** Every size the operating system reports through [w] to [main] is an
    [int64], as [FileInfo.Size()] is. *)
Definition int64World (w : World) : Prop :=
  forall path,
    match Stat w path with
    | NotFound _ => True
    | IsFile fileSize => in_int64 fileSize
    | IsDirectory root =>
        Forall (fun d => in_int64 (infoSize d)) (fst (DirEntry.ReadDir root))
    end.

(** A scenario of the specification as a run: the root found at ["dir"], a
    file of 1536 bytes at ["notes.txt"], nothing elsewhere. *)
Definition sampleWorld : World :=
  mkWorld
    (fun path =>
       if String.eqb path "dir" then IsDirectory scenario
       else if String.eqb path "notes.txt" then IsFile 1536
       else NotFound ErrNotExist)
    (fun path => Some ("/home/user/" ++ path)%string).

(* ===================================================================== *)
(** * Wrap-around arithmetic *)
(* ===================================================================== *)

Section Wrap.

Lemma wrap64_in_int64 z : in_int64 (wrap64 z).
Proof.
  unfold in_int64, wrap64, min_int64, max_int64.
  pose proof (Z.mod_pos_bound (z + 2 ^ 63) (2 ^ 64) ltac:(lia)). lia.
Qed.

Lemma wrap64_small z : in_int64 z -> wrap64 z = z.
Proof.
  unfold in_int64, wrap64, min_int64, max_int64. intros H.
  rewrite Z.mod_small by lia. lia.
Qed.

Lemma wrap64_idem z : wrap64 (wrap64 z) = wrap64 z.
Proof. apply wrap64_small, wrap64_in_int64. Qed.

Lemma wrap64_add_l a b : wrap64 (wrap64 a + b) = wrap64 (a + b).
Proof.
  unfold wrap64. f_equal.
  replace ((a + 2 ^ 63) mod 2 ^ 64 - 2 ^ 63 + b + 2 ^ 63)
    with ((a + 2 ^ 63) mod 2 ^ 64 + b) by lia.
  rewrite Zplus_mod_idemp_l. f_equal. lia.
Qed.

Lemma wrap64_add_r a b : wrap64 (a + wrap64 b) = wrap64 (a + b).
Proof. rewrite Z.add_comm, wrap64_add_l. f_equal. lia. Qed.

Lemma wrap64_0 : wrap64 0 = 0.
Proof. reflexivity. Qed.

Lemma Zsum_cons x l : Zsum (x :: l) = x + Zsum l.
Proof. reflexivity. Qed.

Lemma Zsum_app l1 l2 : Zsum (l1 ++ l2) = Zsum l1 + Zsum l2.
Proof. induction l1 as [|x l1 IH]; simpl; [reflexivity | rewrite IH; lia]. Qed.

Lemma Zsum_perm l1 l2 : Permutation l1 l2 -> Zsum l1 = Zsum l2.
Proof. induction 1; simpl; lia. Qed.

Lemma Zsum_map_wrap64 {A} (f : A -> Z) l :
  wrap64 (Zsum (map (fun x => wrap64 (f x)) l)) = wrap64 (Zsum (map f l)).
Proof.
  induction l as [|x l IH]; simpl; [reflexivity |].
  rewrite wrap64_add_l, <- wrap64_add_r, IH, wrap64_add_r. reflexivity.
Qed.

Lemma Zsum_map_ext {A} (f g : A -> Z) l :
  Forall (fun x => f x = g x) l -> Zsum (map f l) = Zsum (map g l).
Proof. induction 1; simpl; congruence. Qed.

Lemma Zsum_nonneg l : Forall (fun z => 0 <= z) l -> 0 <= Zsum l.
Proof. induction 1; simpl; lia. Qed.

End Wrap.

(* ===================================================================== *)
(** * The walk of [sizeDir] *)
(* ===================================================================== *)

(** Induction on a tree, with the hypothesis for every child of a directory. *)
Lemma Node_ind_children (P : Node -> Prop) :
  (forall name mode info, P (File name mode info)) ->
  (forall name lstat readdir children,
      Forall P children -> P (Dir name lstat readdir children)) ->
  forall d, P d.
Proof.
  intros HFile HDir. fix IH 1. intros [name mode info | name lstat readdir children].
  - apply HFile.
  - apply HDir. induction children as [|c cs IHcs]; constructor.
    + apply IH.
    + exact IHcs.
Qed.

Section WalkFacts.

Context {St : Type} (fn : WalkDirFunc St).

(** [walkDir] on a directory, with its loop named. *)
Lemma walkDir_Dir name lstat readdir children s :
  walkDir fn (Dir name lstat readdir children) s =
  let '(s1, err) := fn name (Some (Dir name lstat readdir children)) None s in
  match err with
  | Some e => (s1, afterCallback (Dir name lstat readdir children) e)
  | None =>
      let '(s2, err2) :=
        match readdir with
        | None => (s1, None)
        | Some e => fn name (Some (Dir name lstat readdir children)) (Some e) s1
        end in
      match err2 with
      | Some e => (s2, afterCallback (Dir name lstat readdir children) e)
      | None => walkDirs fn children s2
      end
  end.
Proof.
  simpl. destruct (fn name _ None s) as [s1 [e|]]; [reflexivity |].
  destruct readdir as [e|].
  - destruct (fn name _ (Some e) s1) as [s2 [e2|]]; [reflexivity |].
    induction children; reflexivity.
  - induction children; reflexivity.
Qed.

End WalkFacts.

Section SizeDirFacts.

Variable showAll : bool.

Let bytes := measureTree walkedBytes showAll.
Let files := measureTree walkedCount showAll.

(** The callback swallows every error it is handed. *)
Lemma sizeDirFn_error name d e st :
  sizeDirFn showAll name d (Some e) st = (st, None).
Proof. destruct st. reflexivity. Qed.

Lemma walkDir_File name mode info t c :
  in_int64 t -> in_int64 c ->
  walkDir (sizeDirFn showAll) (File name mode info) (t, c) =
  (wrap64 (t + bytes (File name mode info)),
   wrap64 (c + files (File name mode info)), None).
Proof.
  intros Ht Hc. subst bytes files. cbn -[wrap64].
  unfold excluded, walkedBytes, walkedCount, infoSize, infoCount.
  destruct (negb showAll && isHidden name); cbn -[wrap64].
  - rewrite !Z.add_0_r, !wrap64_small by assumption. reflexivity.
  - destruct mode, info; cbn -[wrap64];
      repeat rewrite Z.add_0_r;
      repeat (rewrite (wrap64_small t) by assumption);
      repeat (rewrite (wrap64_small c) by assumption);
      reflexivity.
Qed.

(** The walk of a subtree adds its measures to the state and reports no
    error. *)
Lemma walkDir_sizeDirFn d : forall t c,
  in_int64 t -> in_int64 c ->
  walkDir (sizeDirFn showAll) d (t, c) =
  (wrap64 (t + bytes d), wrap64 (c + files d), None).
Proof.
  induction d as [name mode info | name lstat readdir children IH]
    using Node_ind_children; intros t c Ht Hc.
  - apply walkDir_File; assumption.
  - rewrite walkDir_Dir. subst bytes files. cbn -[wrap64 walkDirs].
    unfold excluded. destruct (negb showAll && isHidden name); cbn -[wrap64 walkDirs].
    + rewrite !Z.add_0_r, !wrap64_small by assumption. reflexivity.
    + assert (Hloop : forall t c, in_int64 t -> in_int64 c ->
                walkDirs (sizeDirFn showAll) children (t, c) =
                (wrap64 (t + Zsum (map (measureTree walkedBytes showAll) children)),
                 wrap64 (c + Zsum (map (measureTree walkedCount showAll) children)),
                 None)).
      { clear t c Ht Hc.
        induction IH as [|d ds Hd _ IHds]; intros t c Ht Hc; cbn -[wrap64].
        - rewrite !Z.add_0_r, !wrap64_small by assumption. reflexivity.
        - rewrite Hd by assumption. cbn -[wrap64].
          rewrite IHds by apply wrap64_in_int64.
          rewrite !wrap64_add_l, !Z.add_assoc. reflexivity. }
      destruct readdir as [e|]; cbn -[wrap64 walkDirs]; apply Hloop; assumption.
Qed.

Lemma walkDirs_sizeDirFn ds : forall t c,
  in_int64 t -> in_int64 c ->
  walkDirs (sizeDirFn showAll) ds (t, c) =
  (wrap64 (t + Zsum (map bytes ds)), wrap64 (c + Zsum (map files ds)), None).
Proof.
  induction ds as [|d ds IH]; intros t c Ht Hc; cbn -[wrap64].
  - rewrite !Z.add_0_r, !wrap64_small by assumption. reflexivity.
  - rewrite walkDir_sizeDirFn by assumption. cbn -[wrap64].
    rewrite IH by apply wrap64_in_int64.
    rewrite !wrap64_add_l, !Z.add_assoc. reflexivity.
Qed.

Lemma in_int64_0 : in_int64 0.
Proof. unfold in_int64, min_int64, max_int64. lia. Qed.

(** [sizeDir] in closed form. *)
Lemma sizeDir_eq d :
  sizeDir d showAll =
  match DirEntry.Lstat d with
  | Some _ => (0, 0, None)
  | None => (wrap64 (bytes d), wrap64 (files d), None)
  end.
Proof.
  unfold sizeDir, WalkDir. destruct (DirEntry.Lstat d) as [e|].
  - reflexivity.
  - rewrite walkDir_sizeDirFn by apply in_int64_0. reflexivity.
Qed.

End SizeDirFacts.

(* ===================================================================== *)
(** * The two loops of [listRootWithSizes] *)
(* ===================================================================== *)

Section RootFacts.

Variable showAll : bool.

Lemma worker_eq d :
  worker showAll d =
  mkDirResult (dirEntryOf showAll d)
    (wrap64 (measureDir walkedBytes showAll d))
    (wrap64 (measureDir walkedCount showAll d)) None.
Proof.
  unfold worker, dirEntryOf, measureDir. rewrite sizeDir_eq.
  destruct (DirEntry.Lstat d); reflexivity.
Qed.

(** One iteration of the first loop, by the class of the child. *)
Lemma classify_eq st d :
  classify showAll st d =
  if listedFile showAll d then
    mkRootState (entries st ++ [fileEntry d]) (wrap64 (totalSize st + infoSize d))
      (wrap64 (totalCount st + infoCount d)) (dirs st)
  else if isSubdir showAll d then
    mkRootState (entries st) (totalSize st) (totalCount st) (dirs st ++ [d])
  else st.
Proof.
  unfold classify, listedFile, isSubdir, excluded, fileEntry, infoSize, infoCount.
  destruct (negb showAll && isHidden (DirEntry.Name d)); [reflexivity |].
  destruct (DirEntry.IsDir d); [reflexivity |].
  destruct (DirEntry.Info d); reflexivity.
Qed.

Lemma listedFile_not_subdir d : listedFile showAll d = true -> isSubdir showAll d = false.
Proof.
  unfold listedFile, isSubdir.
  destruct (excluded showAll (DirEntry.Name d)), (DirEntry.IsDir d); cbn; congruence.
Qed.

(** The first loop. *)
Lemma classify_fold ch : forall st,
  in_int64 (totalSize st) -> in_int64 (totalCount st) ->
  fold_left (classify showAll) ch st =
  mkRootState
    (entries st ++ fileEntries showAll ch)
    (wrap64 (totalSize st
             + Zsum (map (fun d => if listedFile showAll d then infoSize d else 0) ch)))
    (wrap64 (totalCount st
             + Zsum (map (fun d => if listedFile showAll d then infoCount d else 0) ch)))
    (dirs st ++ subdirs showAll ch).
Proof.
  induction ch as [|d ch IH]; intros [es ts tc ds] Hts Htc;
    cbn [entries totalSize totalCount dirs] in *.
  - cbn [fold_left fileEntries subdirs map filter Zsum fold_right].
    unfold fileEntries, subdirs. cbn [map filter].
    rewrite !app_nil_r, !Z.add_0_r, !wrap64_small by assumption. reflexivity.
  - cbn [fold_left]. rewrite classify_eq.
    cbn [entries totalSize totalCount dirs].
    unfold fileEntries, subdirs. cbn [map filter Zsum fold_right]. fold Zsum.
    fold (isSubdir showAll d).
    destruct (listedFile showAll d) eqn:Hfile.
    + rewrite (listedFile_not_subdir d Hfile).
      rewrite IH by apply wrap64_in_int64.
      cbn [entries totalSize totalCount dirs].
      unfold fileEntries, subdirs.
      rewrite <- app_assoc, !wrap64_add_l, !Z.add_assoc. reflexivity.
    + destruct (isSubdir showAll d).
      * rewrite IH by assumption.
        cbn [entries totalSize totalCount dirs].
        unfold fileEntries, subdirs.
        rewrite <- app_assoc, !Z.add_0_l. reflexivity.
      * rewrite IH by assumption.
        cbn [entries totalSize totalCount dirs].
        rewrite !Z.add_0_l. reflexivity.
Qed.

(** The second loop, on results that carry no error. *)
Lemma collect_fold rs : forall st,
  Forall (fun r => err r = None) rs ->
  in_int64 (totalSize st) -> in_int64 (totalCount st) ->
  fold_left collect rs st =
  mkRootState
    (entries st ++ map entry rs)
    (wrap64 (totalSize st + Zsum (map size rs)))
    (wrap64 (totalCount st + Zsum (map count rs)))
    (dirs st).
Proof.
  induction rs as [|r rs IH]; intros [es ts tc ds] Hok Hts Htc;
    cbn [entries totalSize totalCount dirs] in *.
  - cbn [fold_left map Zsum fold_right].
    rewrite !app_nil_r, !Z.add_0_r, !wrap64_small by assumption. reflexivity.
  - inversion Hok as [|? ? Hr Hrs]; subst.
    cbn [fold_left]. unfold collect at 2. rewrite Hr.
    cbn [entries totalSize totalCount dirs].
    rewrite IH by (try assumption; apply wrap64_in_int64).
    cbn [entries totalSize totalCount dirs map Zsum fold_right]. fold Zsum.
    rewrite <- app_assoc, !wrap64_add_l, !Z.add_assoc. reflexivity.
Qed.

Lemma workers_ok ds : Forall (fun r => err r = None) (map (worker showAll) ds).
Proof.
  induction ds as [|d ds IH]; constructor; [rewrite worker_eq; reflexivity | exact IH].
Qed.

(** The children split into listed files and directories. *)
Lemma measure_split (topLeaf leaf : Node -> Z) ch :
  (forall d, DirEntry.Info d = None -> topLeaf d = 0) ->
  Zsum (map (measureChild topLeaf leaf showAll) ch) =
  Zsum (map (fun d => if listedFile showAll d then topLeaf d else 0) ch)
  + Zsum (map (measureDir leaf showAll) (subdirs showAll ch)).
Proof.
  intros Hnone. induction ch as [|d ch IH]; [reflexivity |].
  change (subdirs showAll (d :: ch))
    with (if isSubdir showAll d then d :: subdirs showAll ch else subdirs showAll ch).
  rewrite !map_cons, !Zsum_cons, IH.
  unfold measureChild, listedFile, isSubdir, measureDir.
  destruct (excluded showAll (DirEntry.Name d)); cbn [negb andb]; [lia |].
  destruct (DirEntry.IsDir d); cbn [negb andb].
  - rewrite map_cons, Zsum_cons. lia.
  - destruct (DirEntry.Info d) eqn:Hinfo; [lia | rewrite Hnone by assumption; lia].
Qed.

End RootFacts.

Section ScanFacts.

Context {sorter : SortSlice} {pool : Scheduler}.
Variable showAll : bool.

Lemma deliver_nil : deliver [] = [].
Proof. apply Permutation_nil, deliver_perm. Qed.

(** The second loop on what the pool delivers. *)
Lemma collect_delivered ds st :
  in_int64 (totalSize st) -> in_int64 (totalCount st) ->
  fold_left collect (deliver (map (worker showAll) ds)) st =
  mkRootState
    (entries st ++ map entry (deliver (map (worker showAll) ds)))
    (wrap64 (totalSize st + Zsum (map (measureDir walkedBytes showAll) ds)))
    (wrap64 (totalCount st + Zsum (map (measureDir walkedCount showAll) ds)))
    (dirs st).
Proof.
  intros Hts Htc.
  pose proof (deliver_perm (map (worker showAll) ds)) as Hperm.
  rewrite collect_fold; try assumption.
  - f_equal.
    + rewrite <- (Zsum_perm _ _ (Permutation_map size Hperm)), map_map.
      rewrite (map_ext _ (fun d => wrap64 (measureDir walkedBytes showAll d)))
        by (intros d; rewrite worker_eq; reflexivity).
      rewrite <- wrap64_add_r, Zsum_map_wrap64, wrap64_add_r. reflexivity.
    + rewrite <- (Zsum_perm _ _ (Permutation_map count Hperm)), map_map.
      rewrite (map_ext _ (fun d => wrap64 (measureDir walkedCount showAll d)))
        by (intros d; rewrite worker_eq; reflexivity).
      rewrite <- wrap64_add_r, Zsum_map_wrap64, wrap64_add_r. reflexivity.
  - eapply Permutation_Forall; [exact Hperm | apply workers_ok].
Qed.

(** [listRootWithSizes] on a root that can be read, in closed form. *)
Lemma listRoot_eq root ch :
  DirEntry.ReadDir root = (ch, None) ->
  listRootWithSizes root showAll =
  (sortSlice bySizeDesc (gathered showAll ch),
   wrap64 (codeTotalSize showAll root),
   wrap64 (codeTotalCount showAll root), None).
Proof.
  intros Hread. unfold listRootWithSizes. rewrite Hread.
  rewrite classify_fold by apply in_int64_0.
  cbn [entries totalSize totalCount dirs app]. rewrite !Z.add_0_l.
  set (st := mkRootState _ _ _ _).
  assert (Hst : (if (0 <? List.length (subdirs showAll ch))%nat
                 then fold_left collect
                        (deliver (map (worker showAll) (subdirs showAll ch))) st
                 else st)
                = fold_left collect
                    (deliver (map (worker showAll) (subdirs showAll ch))) st).
  { destruct (subdirs showAll ch); [| reflexivity].
    cbn [List.length Nat.ltb Nat.leb map]. rewrite deliver_nil. reflexivity. }
  rewrite Hst. clear Hst.
  rewrite collect_delivered by (subst st; apply wrap64_in_int64).
  subst st. cbn [entries totalSize totalCount dirs].
  unfold codeTotalSize, codeTotalCount, measureRoot, gathered.
  rewrite Hread. cbn [fst].
  rewrite !wrap64_add_l.
  rewrite (measure_split showAll infoSize walkedBytes)
    by (intros d Hd; unfold infoSize; rewrite Hd; reflexivity).
  rewrite (measure_split showAll infoCount walkedCount)
    by (intros d Hd; unfold infoCount; rewrite Hd; reflexivity).
  reflexivity.
Qed.

(** A root that cannot be read fails the scan. *)
Lemma listRoot_unreadable root ch e :
  DirEntry.ReadDir root = (ch, Some e) ->
  listRootWithSizes root showAll = ([], 0, 0, Some e).
Proof. intros Hread. unfold listRootWithSizes. rewrite Hread. reflexivity. Qed.

End ScanFacts.

(* ===================================================================== *)
(** * Sorting by size *)
(* ===================================================================== *)

Lemma bySizeDesc_strictWeakOrder : strictWeakOrder bySizeDesc.
Proof.
  unfold strictWeakOrder, bySizeDesc. repeat split; intros; lia.
Qed.

(** Adjacent elements of a sorted list are related. *)
Lemma Sorted_adjacent {A} (R : A -> A -> Prop) l :
  Sorted R l ->
  forall i a b, nth_error l i = Some a -> nth_error l (S i) = Some b -> R a b.
Proof.
  induction 1 as [|x l Hsorted IH Hhd]; intros i a b Ha Hb.
  - destruct i; discriminate.
  - destruct i as [|i]; cbn in Ha, Hb.
    + injection Ha as <-. destruct l as [|y l]; [discriminate |].
      cbn in Hb. injection Hb as <-. inversion Hhd; assumption.
    + eapply IH; eassumption.
Qed.

Example scenario_default :
  @listRootWithSizes insertionSorter inOrder scenario false =
  ([mkEntry "sub" 200 "dir"; mkEntry "a.txt" 100 "file"], 300, 2, None).
Proof. vm_compute. reflexivity. Qed.

Example scenario_showAll :
  @listRootWithSizes insertionSorter lastFirst scenario true =
  ([mkEntry "sub" 210 "dir"; mkEntry "a.txt" 100 "file";
    mkEntry ".hidden.txt" 50 "file"], 360, 4, None).
Proof. vm_compute. reflexivity. Qed.

(* ===================================================================== *)
(** * Properties of the scan result *)
(* ===================================================================== *)

Section SortedResult.

Context {sorter : SortSlice} {pool : Scheduler}.

Lemma gathered_sizes showAll ch :
  wrap64 (Zsum (map Size (gathered showAll ch)))
  = wrap64 (Zsum (map (measureChild infoSize walkedBytes showAll) ch)).
Proof.
  unfold gathered. rewrite map_app, Zsum_app.
  rewrite (measure_split showAll infoSize walkedBytes)
    by (intros d Hd; unfold infoSize; rewrite Hd; reflexivity).
  rewrite <- wrap64_add_r. symmetry. rewrite <- wrap64_add_r. symmetry.
  f_equal. f_equal.
  - unfold fileEntries. rewrite map_map. cbn [fileEntry Size].
    induction ch as [|d ch IH]; [reflexivity |].
    cbn [filter map]. destruct (listedFile showAll d).
    + rewrite map_cons, !Zsum_cons, IH. reflexivity.
    + rewrite Zsum_cons, IH. reflexivity.
  - rewrite map_map.
    pose proof (deliver_perm (map (worker showAll) (subdirs showAll ch))) as Hperm.
    rewrite <- (Zsum_perm _ _ (Permutation_map (fun r => Size (entry r)) Hperm)).
    rewrite map_map.
    rewrite (map_ext _ (fun d => wrap64 (measureDir walkedBytes showAll d)))
      by (intros d; rewrite worker_eq; reflexivity).
    apply Zsum_map_wrap64.
Qed.

Lemma gathered_dir showAll ch e :
  In e (gathered showAll ch) -> Type_ e = "dir"%string ->
  exists d, In d ch /\ isSubdir showAll d = true /\ e = dirEntryOf showAll d.
Proof.
  unfold gathered. intros Hin Hdir. apply in_app_or in Hin as [Hin | Hin].
  - unfold fileEntries in Hin. apply in_map_iff in Hin as (d & <- & _).
    discriminate.
  - apply in_map_iff in Hin as (r & <- & Hr).
    apply (Permutation_in _ (Permutation_sym (deliver_perm _))) in Hr.
    apply in_map_iff in Hr as (d & <- & Hd).
    apply filter_In in Hd as [Hd Hsub].
    exists d. rewrite worker_eq. auto.
Qed.

(** C6. For every successful scan, [totalSize] is the sum of the [Size]
    field over the returned entries: the sum as [int64] addition forms it,
    hence the exact sum whenever that is representable; and the [Size] of
    an entry of type ["dir"] is the byte total [sizeDir] found beneath that
    immediate subdirectory. *)
Theorem totalSize_sums_entry_sizes root showAll :
  resErr (listRootWithSizes root showAll) = None ->
  let r := listRootWithSizes root showAll in
  resTotalSize r = wrap64 (Zsum (map Size (resEntries r)))
  /\ (in_int64 (Zsum (map Size (resEntries r))) ->
      resTotalSize r = Zsum (map Size (resEntries r)))
  /\ (forall e, In e (resEntries r) -> Type_ e = "dir"%string ->
      exists d, In d (fst (DirEntry.ReadDir root))
                /\ DirEntry.IsDir d = true
                /\ Name e = DirEntry.Name d
                /\ (let '(bytes, _, _) := sizeDir d showAll in Size e = bytes)).
Proof.
  intros Hok r.
  destruct (DirEntry.ReadDir root) as [ch [e|]] eqn:Hread.
  - subst r. rewrite (listRoot_unreadable showAll root ch e Hread) in Hok.
    discriminate.
  - assert (Hsum : resTotalSize r = wrap64 (Zsum (map Size (resEntries r)))).
    { subst r. rewrite (listRoot_eq showAll root ch Hread).
      cbn [resTotalSize resEntries].
      rewrite <- (Zsum_perm _ _ (Permutation_map Size (sortSlice_perm bySizeDesc _))).
      rewrite gathered_sizes. unfold codeTotalSize, measureRoot.
      rewrite Hread. reflexivity. }
    split; [exact Hsum |]. split.
    + intros Hfit. rewrite Hsum. apply wrap64_small, Hfit.
    + subst r. rewrite (listRoot_eq showAll root ch Hread).
      cbn [resEntries fst]. intros e He Hdir.
      apply (Permutation_in _ (Permutation_sym (sortSlice_perm bySizeDesc _))) in He.
      destruct (gathered_dir showAll ch e He Hdir) as (d & Hd & Hsub & ->).
      exists d. split; [exact Hd |].
      unfold isSubdir in Hsub. apply andb_prop in Hsub as [_ Hsub].
      split; [exact Hsub |]. split; [reflexivity |].
      rewrite sizeDir_eq. unfold dirEntryOf, measureDir. cbn [Size].
      destruct (DirEntry.Lstat d); reflexivity.
Qed.

(** C7. The entry list a scan returns is sorted by size, largest first:
    for every adjacent pair of indices [i], [i + 1] the size at [i] is at
    least the size at [i + 1]. *)
Theorem entries_sorted_by_size_desc root showAll i a b :
  nth_error (resEntries (listRootWithSizes root showAll)) i = Some a ->
  nth_error (resEntries (listRootWithSizes root showAll)) (S i) = Some b ->
  Size a >= Size b.
Proof.
  intros Ha Hb.
  assert (Hsorted : Sorted (fun x y => Size x >= Size y)
                      (resEntries (listRootWithSizes root showAll))).
  { destruct (DirEntry.ReadDir root) as [ch [e|]] eqn:Hread.
    - rewrite (listRoot_unreadable showAll root ch e Hread). constructor.
    - rewrite (listRoot_eq showAll root ch Hread). cbn [resEntries].
      pose proof (sortSlice_sorted bySizeDesc (gathered showAll ch)
                    bySizeDesc_strictWeakOrder) as Hs.
      induction Hs as [|x l Hl IH Hhd]; constructor; [exact IH |].
      destruct Hhd as [|y l Hxy]; constructor.
      unfold bySizeDesc in Hxy. lia. }
  exact (Sorted_adjacent _ _ Hsorted i a b Ha Hb).
Qed.

End SortedResult.

(** C8. On a fixed file system and a fixed [showAll], two runs return the
    same [totalSize], the same [totalCount], the same error and the same
    multiset of entries, whatever the order in which the per-directory
    results reach the aggregator in each run. *)
Theorem totals_independent_of_arrival_order
  (sorter1 sorter2 : SortSlice) (pool1 pool2 : Scheduler) root showAll :
  let r1 := @listRootWithSizes sorter1 pool1 root showAll in
  let r2 := @listRootWithSizes sorter2 pool2 root showAll in
  resTotalSize r1 = resTotalSize r2
  /\ resTotalCount r1 = resTotalCount r2
  /\ resErr r1 = resErr r2
  /\ Permutation (resEntries r1) (resEntries r2).
Proof.
  intros r1 r2. subst r1 r2.
  destruct (DirEntry.ReadDir root) as [ch [e|]] eqn:Hread.
  - rewrite !(listRoot_unreadable showAll root ch e Hread).
    repeat split. apply Permutation_refl.
  - rewrite !(listRoot_eq showAll root ch Hread).
    cbn [resTotalSize resTotalCount resErr resEntries].
    repeat split.
    eapply perm_trans; [apply Permutation_sym, sortSlice_perm |].
    eapply perm_trans; [| apply sortSlice_perm].
    unfold gathered. apply Permutation_app_head, Permutation_map.
    eapply perm_trans; [apply Permutation_sym, deliver_perm | apply deliver_perm].
Qed.

(* ===================================================================== *)
(** * Errors: what is swallowed and what is reported *)
(* ===================================================================== *)

Section Errors.

Variable showAll : bool.

Lemma dropFailing_Dir name lstat readdir children :
  dropFailing (Dir name lstat readdir children)
  = Dir name lstat readdir (dropFailingList children).
Proof. reflexivity. Qed.

Lemma measureTree_failing leaf d :
  (forall name mode, mode <> ModeSymlink -> leaf (File name mode None) = 0) ->
  failing d = true -> measureTree leaf showAll d = 0.
Proof.
  intros Hleaf.
  destruct d as [name mode [sz|] | name lstat [e|] [|c cs]]; cbn;
    try discriminate; intros Hfail.
  - destruct (excluded showAll name); [reflexivity |].
    apply Hleaf. intros ->. discriminate.
  - destruct (excluded showAll name); reflexivity.
Qed.

Lemma measureTree_dropFailing leaf :
  (forall name mode, mode <> ModeSymlink -> leaf (File name mode None) = 0) ->
  forall d, measureTree leaf showAll (dropFailing d) = measureTree leaf showAll d.
Proof.
  intros Hleaf.
  induction d as [name mode info | name lstat readdir children IH]
    using Node_ind_children; [reflexivity |].
  rewrite dropFailing_Dir. cbn [measureTree].
  destruct (excluded showAll name); [reflexivity |].
  induction IH as [|c cs Hc _ IHcs]; [reflexivity |].
  cbn [dropFailingList]. destruct (failing c) eqn:Hfail.
  - rewrite map_cons, Zsum_cons, IHcs.
    rewrite (measureTree_failing leaf c Hleaf Hfail). lia.
  - rewrite !map_cons, !Zsum_cons, IHcs, Hc. reflexivity.
Qed.

Lemma walkedBytes_failed name mode :
  mode <> ModeSymlink -> walkedBytes (File name mode None) = 0.
Proof. destruct mode; cbn; congruence. Qed.

Lemma walkedCount_failed name mode :
  mode <> ModeSymlink -> walkedCount (File name mode None) = 0.
Proof. destruct mode; cbn; congruence. Qed.

Lemma Lstat_dropFailing d : DirEntry.Lstat (dropFailing d) = DirEntry.Lstat d.
Proof. destruct d; [reflexivity | rewrite dropFailing_Dir; reflexivity]. Qed.

(** What the callback's first statement does to the errors of a walk: it
    answers [nil] to every error [WalkDir] hands it, so the error [sizeDir]
    passes on from [WalkDir] is always nil, also when the top-level path
    cannot be [lstat]ed or read; an I/O error on an entry inside the subtree
    is skipped where it occurs, the walk going on as if the failing entry
    were not there. *)
Lemma sizeDir_never_fails :
  (forall d, let '(_, _, e) := sizeDir d showAll in e = None)
  /\ (forall name e readdir children,
         sizeDir (Dir name (Some e) readdir children) showAll = (0, 0, None))
  /\ (forall name e,
         sizeDir (Dir name None (Some e) []) showAll = (0, 0, None))
  /\ (forall d, sizeDir (dropFailing d) showAll = sizeDir d showAll).
Proof.
  split; [| split; [| split]].
  - intros d. rewrite sizeDir_eq. destruct (DirEntry.Lstat d); reflexivity.
  - intros name e readdir children. rewrite sizeDir_eq. reflexivity.
  - intros name e. rewrite sizeDir_eq. cbn.
    destruct (excluded showAll name); reflexivity.
  - intros d. rewrite !sizeDir_eq, Lstat_dropFailing.
    rewrite (measureTree_dropFailing walkedBytes walkedBytes_failed).
    rewrite (measureTree_dropFailing walkedCount walkedCount_failed).
    reflexivity.
Qed.

Lemma unwalkable_IsDir d : unwalkable d = true -> DirEntry.IsDir d = true.
Proof. destruct d; [discriminate | reflexivity]. Qed.

Lemma measureDir_unwalkable leaf d :
  unwalkable d = true -> measureDir leaf showAll d = 0.
Proof.
  destruct d as [name mode info | name [e|] [e'|] [|c cs]]; cbn;
    try discriminate; try reflexivity.
  intros _. unfold measureDir. cbn. destruct (excluded showAll name); reflexivity.
Qed.

Lemma measureChild_unwalkable topLeaf leaf d :
  unwalkable d = true -> measureChild topLeaf leaf showAll d = 0.
Proof.
  intros Hd. unfold measureChild. rewrite (unwalkable_IsDir d Hd).
  fold (measureDir leaf showAll d). rewrite (measureDir_unwalkable leaf d Hd).
  destruct (excluded showAll (DirEntry.Name d)); reflexivity.
Qed.

Lemma measureRoot_without topLeaf leaf rname rl rd pre d post :
  measureChild topLeaf leaf showAll d = 0 ->
  measureRoot topLeaf leaf showAll (Dir rname rl rd (pre ++ d :: post))
  = measureRoot topLeaf leaf showAll (Dir rname rl rd (pre ++ post)).
Proof.
  intros Hd. unfold measureRoot. cbn [DirEntry.ReadDir fst].
  rewrite !map_app, !Zsum_app, map_cons, Zsum_cons, Hd. reflexivity.
Qed.

Context {sorter : SortSlice} {pool : Scheduler}.

Lemma gathered_with_subdir pre d post :
  isSubdir showAll d = true ->
  Permutation (gathered showAll (pre ++ d :: post))
    (dirEntryOf showAll d :: gathered showAll (pre ++ post)).
Proof.
  intros Hsub. unfold gathered, fileEntries, subdirs.
  rewrite !filter_app. cbn [filter]. rewrite Hsub.
  assert (Hfile : listedFile showAll d = false).
  { destruct (listedFile showAll d) eqn:Hf; [| reflexivity].
    rewrite (listedFile_not_subdir showAll d Hf) in Hsub. discriminate. }
  rewrite Hfile.
  set (files := map fileEntry (filter (listedFile showAll) pre
                                 ++ filter (listedFile showAll) post)).
  apply perm_trans
    with (files ++ dirEntryOf showAll d
            :: map entry (deliver (map (worker showAll)
                 (filter (isSubdir showAll) pre ++ filter (isSubdir showAll) post)))).
  - apply Permutation_app_head.
    eapply perm_trans;
      [apply Permutation_map, Permutation_sym, deliver_perm |].
    rewrite map_app, map_cons, map_app, map_cons.
    eapply perm_trans; [apply Permutation_sym, Permutation_middle |].
    rewrite worker_eq. cbn [entry]. apply perm_skip.
    rewrite <- map_app, <- map_app.
    apply Permutation_map, deliver_perm.
  - apply Permutation_sym, Permutation_middle.
Qed.

(** What the aggregator makes of an immediate subdirectory that cannot be
    walked: its result carries no error, so the branch that would drop it
    is not taken and an entry of type ["dir"] and size 0 is appended; the
    totals and the other entries are what they are without it. *)
Lemma unwalkable_dir_listed_with_size_0 rname rl pre d post :
  unwalkable d = true ->
  excluded showAll (DirEntry.Name d) = false ->
  let r := listRootWithSizes (Dir rname rl None (pre ++ d :: post)) showAll in
  let r' := listRootWithSizes (Dir rname rl None (pre ++ post)) showAll in
  resErr r = None
  /\ sizeDir d showAll = (0, 0, None)
  /\ In (mkEntry (DirEntry.Name d) 0 "dir") (resEntries r)
  /\ resTotalSize r = resTotalSize r'
  /\ resTotalCount r = resTotalCount r'
  /\ Permutation (resEntries r) (mkEntry (DirEntry.Name d) 0 "dir" :: resEntries r').
Proof.
  intros Hd Hshown r r'. subst r r'.
  rewrite (listRoot_eq showAll (Dir rname rl None (pre ++ d :: post))
             (pre ++ d :: post) eq_refl).
  rewrite (listRoot_eq showAll (Dir rname rl None (pre ++ post))
             (pre ++ post) eq_refl).
  cbn [resErr resTotalSize resTotalCount resEntries].
  assert (Hsub : isSubdir showAll d = true).
  { unfold isSubdir. rewrite Hshown, (unwalkable_IsDir d Hd). reflexivity. }
  assert (Hentry : dirEntryOf showAll d = mkEntry (DirEntry.Name d) 0 "dir").
  { unfold dirEntryOf. rewrite (measureDir_unwalkable _ d Hd). reflexivity. }
  assert (Hperm : Permutation (sortSlice bySizeDesc (gathered showAll (pre ++ d :: post)))
                    (mkEntry (DirEntry.Name d) 0 "dir"
                       :: sortSlice bySizeDesc (gathered showAll (pre ++ post)))).
  { eapply perm_trans; [apply Permutation_sym, sortSlice_perm |].
    eapply perm_trans; [apply gathered_with_subdir, Hsub |].
    rewrite Hentry. apply perm_skip, sortSlice_perm. }
  split; [reflexivity |]. split.
  { rewrite sizeDir_eq. pose proof (measureDir_unwalkable walkedBytes d Hd) as Hb.
    pose proof (measureDir_unwalkable walkedCount d Hd) as Hc.
    unfold measureDir in Hb, Hc. destruct (DirEntry.Lstat d); [reflexivity |].
    rewrite Hb, Hc. reflexivity. }
  split.
  { apply (Permutation_in _ (Permutation_sym Hperm)). left. reflexivity. }
  unfold codeTotalSize, codeTotalCount.
  rewrite !(measureRoot_without _ _ rname rl None pre d post)
    by (apply measureChild_unwalkable, Hd).
  repeat split. exact Hperm.
Qed.

End Errors.

(* ===================================================================== *)
(** * The totals against the tree *)
(* ===================================================================== *)

Section Totals.

Variable showAll : bool.

Lemma measureTree_ext leaf1 leaf2 (p : Node -> bool) :
  (forall d, p d = true -> leaf1 d = leaf2 d) ->
  forall d, allFiles p d = true ->
            measureTree leaf1 showAll d = measureTree leaf2 showAll d.
Proof.
  intros Hleaf.
  induction d as [name mode info | name lstat readdir children IH]
    using Node_ind_children; cbn [allFiles measureTree]; intros Hall.
  - destruct (excluded showAll name); [reflexivity | apply Hleaf, Hall].
  - destruct (excluded showAll name); [reflexivity |].
    induction IH as [|c cs Hc _ IHcs]; [reflexivity |].
    cbn [forallb] in Hall. apply andb_prop in Hall as [Hc' Hcs'].
    rewrite !map_cons, !Zsum_cons, (Hc Hc'), (IHcs Hcs'). reflexivity.
Qed.

Lemma measureRoot_ext top1 top2 leaf1 leaf2 (pTop p : Node -> bool) root :
  (forall d, pTop d = true -> top1 d = top2 d) ->
  (forall d, p d = true -> leaf1 d = leaf2 d) ->
  Forall (fun d => if DirEntry.IsDir d then allFiles p d = true else pTop d = true)
    (fst (DirEntry.ReadDir root)) ->
  measureRoot top1 leaf1 showAll root = measureRoot top2 leaf2 showAll root.
Proof.
  intros Htop Hleaf Hall. unfold measureRoot.
  induction Hall as [|d ds Hd _ IH]; [reflexivity |].
  rewrite !map_cons, !Zsum_cons, IH. f_equal.
  unfold measureChild.
  destruct (excluded showAll (DirEntry.Name d)); [reflexivity |].
  destruct (DirEntry.IsDir d).
  - destruct (DirEntry.Lstat d); [reflexivity |].
    apply (measureTree_ext leaf1 leaf2 p Hleaf d Hd).
  - apply Htop, Hd.
Qed.

Lemma measureTree_noFile leaf d :
  noFile d = true -> measureTree leaf showAll d = 0.
Proof.
  unfold noFile.
  induction d as [name mode info | name lstat readdir children IH]
    using Node_ind_children; cbn [allFiles measureTree]; intros Hall.
  - discriminate.
  - destruct (excluded showAll name); [reflexivity |].
    induction IH as [|c cs Hc _ IHcs]; [reflexivity |].
    cbn [forallb] in Hall. apply andb_prop in Hall as [Hc' Hcs'].
    rewrite map_cons, Zsum_cons, (Hc Hc'), (IHcs Hcs'). reflexivity.
Qed.

Lemma measureRoot_noFile topLeaf leaf root :
  noFile root = true -> measureRoot topLeaf leaf showAll root = 0.
Proof.
  unfold measureRoot, noFile.
  destruct root as [name mode info | name lstat readdir children];
    cbn [allFiles DirEntry.ReadDir fst]; [discriminate |].
  induction children as [|c cs IH]; [reflexivity |].
  cbn [forallb]. intros Hall. apply andb_prop in Hall as [Hc Hcs].
  rewrite map_cons, Zsum_cons, (IH Hcs). unfold measureChild.
  destruct (excluded showAll (DirEntry.Name c)); [reflexivity |].
  destruct c as [cname cmode cinfo | cname cl cr cch]; [discriminate |].
  cbn [DirEntry.IsDir]. destruct (DirEntry.Lstat _); [reflexivity |].
  rewrite (measureTree_noFile leaf _ Hc). reflexivity.
Qed.

Context {sorter : SortSlice} {pool : Scheduler}.

Lemma scan_ok_inv root :
  resErr (listRootWithSizes root showAll) = None ->
  exists ch, DirEntry.ReadDir root = (ch, None).
Proof.
  intros Hok. destruct (DirEntry.ReadDir root) as [ch [e|]] eqn:Hread.
  - rewrite (listRoot_unreadable showAll root ch e Hread) in Hok. discriminate.
  - exists ch. reflexivity.
Qed.

(** C5, as the code has it.  For every successful scan, [totalCount] is the
    number of non-hidden non-directory entries reachable from the root
    (with recursive hidden pruning) whose metadata is readable where the
    code reads it: every immediate child of the root, and below that every
    entry but a symbolic link, which is counted unread.  Regular files,
    symbolic links and special files (pipes, sockets, devices) count
    alike; directories are never counted, so a tree of directories alone
    counts 0. *)
Theorem totalCount_counts_every_nondirectory root :
  resErr (listRootWithSizes root showAll) = None ->
  let r := listRootWithSizes root showAll in
  resTotalCount r = wrap64 (codeTotalCount showAll root)
  /\ (in_int64 (codeTotalCount showAll root) ->
      resTotalCount r = codeTotalCount showAll root)
  /\ (noFile root = true -> resTotalCount r = 0).
Proof.
  intros Hok r. destruct (scan_ok_inv root Hok) as [ch Hread].
  assert (Heq : resTotalCount r = wrap64 (codeTotalCount showAll root)).
  { subst r. rewrite (listRoot_eq showAll root ch Hread). reflexivity. }
  split; [exact Heq |]. split.
  - intros Hfit. rewrite Heq. apply wrap64_small, Hfit.
  - intros Hnone. rewrite Heq. unfold codeTotalCount.
    rewrite (measureRoot_noFile _ _ root Hnone). reflexivity.
Qed.

(** On a tree of directories, regular files and symbolic links with
    readable metadata the count is the one the specification words. *)
Lemma totalCount_matches_spec root :
  resErr (listRootWithSizes root showAll) = None ->
  allFiles readableFile root = true ->
  resTotalCount (listRootWithSizes root showAll)
  = wrap64 (specTotalCount showAll root).
Proof.
  intros Hok Hall. destruct (scan_ok_inv root Hok) as [ch Hread].
  rewrite (listRoot_eq showAll root ch Hread). cbn [resTotalCount]. f_equal.
  unfold codeTotalCount, specTotalCount.
  apply (measureRoot_ext infoCount fileLike walkedCount fileLike
           readableFile readableFile).
  - intros [name [] [sz|] | name l rd cs]; cbn; congruence.
  - intros [name [] [sz|] | name l rd cs]; cbn; congruence.
  - destruct root as [name mode info | name l rd cs]; [discriminate |].
    cbn [DirEntry.ReadDir fst allFiles] in *.
    apply Forall_forall. intros d Hd.
    rewrite forallb_forall in Hall. specialize (Hall d Hd).
    destruct d; cbn [DirEntry.IsDir]; exact Hall.
Qed.

(** Where no immediate child of the root is a symbolic link and no special
    file reports a size, the total size is the one the specification words. *)
Lemma totalSize_matches_spec root :
  resErr (listRootWithSizes root showAll) = None ->
  allFiles sizedAsSpecified root = true ->
  Forall (fun d => DirEntry.IsSymlink d = false) (fst (DirEntry.ReadDir root)) ->
  resTotalSize (listRootWithSizes root showAll)
  = wrap64 (specTotalSize showAll root).
Proof.
  intros Hok Hall Hlinks. destruct (scan_ok_inv root Hok) as [ch Hread].
  rewrite (listRoot_eq showAll root ch Hread). cbn [resTotalSize]. f_equal.
  unfold codeTotalSize, specTotalSize.
  apply (measureRoot_ext infoSize regularSize walkedBytes regularSize
           (fun d => sizedAsSpecified d && negb (DirEntry.IsSymlink d))
           sizedAsSpecified).
  - intros [name [] [sz|] | name l rd cs]; unfold sizedAsSpecified; cbn;
      try congruence; intros H; apply andb_prop in H as [H _];
      apply Z.eqb_eq in H; congruence.
  - intros [name [] [sz|] | name l rd cs]; unfold sizedAsSpecified; cbn;
      try congruence; intros H; apply Z.eqb_eq in H; congruence.
  - destruct root as [name mode info | name l rd cs]; [discriminate |].
    cbn [DirEntry.ReadDir fst allFiles] in *.
    apply Forall_forall. intros d Hd.
    rewrite forallb_forall in Hall. specialize (Hall d Hd).
    rewrite Forall_forall in Hlinks. specialize (Hlinks d Hd).
    destruct d; cbn [DirEntry.IsDir]; [| exact Hall].
    cbn [allFiles] in Hall. rewrite Hall, Hlinks. reflexivity.
Qed.

Lemma sortSlice_singleton less x : sortSlice less [x] = [x].
Proof. apply Permutation_length_1_inv, sortSlice_perm. Qed.

Lemma deliver_singleton r : deliver [r] = [r].
Proof. apply Permutation_length_1_inv, deliver_perm. Qed.

End Totals.

(* ===================================================================== *)
(** * Symbolic links *)
(* ===================================================================== *)

(** Below the root of a walk a symbolic link is counted and adds no byte. *)
Lemma walk_symlink_adds_no_byte showAll name info t c :
  excluded showAll name = false ->
  walkDir (sizeDirFn showAll) (File name ModeSymlink info) (t, c)
  = (t, wrap64 (c + 1), None).
Proof.
  intros Hshown. unfold excluded in Hshown. cbn -[wrap64]. rewrite Hshown. reflexivity.
Qed.

(** C1, the code at the failing input.  A symbolic link that is an
    immediate child of the root is listed as a file and adds the size its
    [Info()] reports to [totalSize]; the same link inside a subdirectory
    adds 0. *)
Theorem root_symlink_adds_its_lstat_size (sorter : SortSlice) (pool : Scheduler) :
  listRootWithSizes rootWithLink false = ([mkEntry "link" 6 "file"], 6, 1, None)
  /\ listRootWithSizes rootWithNestedLink false = ([mkEntry "sub" 0 "dir"], 0, 1, None).
Proof.
  split.
  - rewrite (listRoot_eq false rootWithLink _ eq_refl).
    unfold gathered. cbn [rootWithLink subdirs filter isSubdir excluded negb andb
                            DirEntry.IsDir DirEntry.Name isHidden map].
    cbn -[sortSlice deliver]. rewrite deliver_nil. cbn [map app].
    rewrite sortSlice_singleton. reflexivity.
  - rewrite (listRoot_eq false rootWithNestedLink _ eq_refl).
    unfold gathered. cbn -[sortSlice deliver worker].
    rewrite deliver_singleton. cbn [map app]. rewrite sortSlice_singleton.
    reflexivity.
Qed.

(** C4, the code at the failing input.  With a symbolic link among the
    immediate children of the root, [totalSize] exceeds the sum of the sizes
    of the regular files by the size [Info()] reports for the link. *)
Theorem totalSize_includes_root_symlink (sorter : SortSlice) (pool : Scheduler) :
  resTotalSize (listRootWithSizes rootWithFileAndLink false) = 104
  /\ specTotalSize false rootWithFileAndLink = 100.
Proof.
  split; [| reflexivity].
  rewrite (listRoot_eq false rootWithFileAndLink _ eq_refl). reflexivity.
Qed.

(* ===================================================================== *)
(** * Inputs on which the specification and the code part *)
(* ===================================================================== *)

(** The directory that cannot be walked is listed. *)
Lemma unreadable_dir_is_listed :
  ~ (forall e,
        In e (resEntries (@listRootWithSizes insertionSorter inOrder
                            rootWithUnreadableDir false)) ->
        Name e <> "bad"%string).
Proof.
  intros Hclaim. apply (Hclaim (mkEntry "bad" 0 "dir")); [| reflexivity].
  vm_compute. right. left. reflexivity.
Qed.

(** A top-level path that cannot be opened yields no error. *)
Lemma sizeDir_swallows_top_level_failure :
  ~ (let '(_, _, e) := sizeDir (Dir "locked" None (Some ErrPermission) []) false in
     e <> None).
Proof. vm_compute. intros Hclaim. apply Hclaim. reflexivity. Qed.

(** C3, the code at the failing input.  For a top-level path that cannot be
    opened for reading, and for one that cannot be [lstat]ed, [WalkDir]
    hands the failure to the callback, whose first statement answers [nil]:
    [sizeDir] returns 0 bytes, 0 files and a nil error, where its caller
    tests the error to tell a walk that could not start. *)
Theorem sizeDir_top_level_failure_returns_nil (showAll : bool) :
  sizeDirFn showAll "gone"%string None (Some ErrNotExist) (0, 0) = ((0, 0), None)
  /\ sizeDir (Dir "gone" (Some ErrNotExist) None []) showAll = (0, 0, None)
  /\ sizeDir (Dir "locked" None (Some ErrPermission) []) showAll = (0, 0, None).
Proof.
  split; [reflexivity |]. split.
  - rewrite sizeDir_eq. reflexivity.
  - rewrite sizeDir_eq. cbn [DirEntry.Lstat measureTree map Zsum fold_right].
    destruct (excluded showAll "locked"%string); reflexivity.
Qed.

(** C2, the code at the failing input.  The worker's result for the
    directory that cannot be opened carries size 0, count 0 and a nil
    error, so the aggregator's test of [result.err] does not drop it: the
    scan lists the entry [{bad, 0, dir}] beside the sibling, whose
    contribution makes up the totals. *)
Theorem unwalkable_dir_is_not_dropped (sorter : SortSlice) (pool : Scheduler) :
  worker false (Dir "bad" None (Some ErrPermission) [])
  = mkDirResult (mkEntry "bad" 0 "dir") 0 0 None
  /\ resErr (listRootWithSizes rootWithUnreadableDir false) = None
  /\ In (mkEntry "bad" 0 "dir") (resEntries (listRootWithSizes rootWithUnreadableDir false))
  /\ In (mkEntry "good" 5 "dir") (resEntries (listRootWithSizes rootWithUnreadableDir false))
  /\ resTotalSize (listRootWithSizes rootWithUnreadableDir false) = 5
  /\ resTotalCount (listRootWithSizes rootWithUnreadableDir false) = 1.
Proof.
  split; [reflexivity |].
  rewrite (listRoot_eq false rootWithUnreadableDir _ eq_refl).
  cbn [resErr resEntries resTotalSize resTotalCount].
  split; [reflexivity |].
  assert (Hin : forall d,
             In d [Dir "bad" None (Some ErrPermission) [];
                   Dir "good" None None [File "f" ModeRegular (Some 5)]] ->
             In (entry (worker false d))
               (sortSlice bySizeDesc
                  (gathered false
                     [Dir "bad" None (Some ErrPermission) [];
                      Dir "good" None None [File "f" ModeRegular (Some 5)]]))).
  { intros d Hd. apply (Permutation_in _ (sortSlice_perm bySizeDesc _)).
    unfold gathered. apply in_or_app. right. apply in_map.
    apply (Permutation_in _ (deliver_perm _)). apply in_map. exact Hd. }
  split; [exact (Hin _ (or_introl eq_refl)) |].
  split; [exact (Hin _ (or_intror (or_introl eq_refl))) |].
  split; reflexivity.
Qed.

(** C5 as stated fails: a named pipe is counted, though it is neither a
    regular file nor a symbolic link. *)
Lemma named_pipe_is_counted :
  resTotalCount (@listRootWithSizes insertionSorter inOrder rootWithPipe false)
  <> specTotalCount false rootWithPipe.
Proof. vm_compute. discriminate. Qed.

(* ===================================================================== *)
(** * [formatBytes] *)
(* ===================================================================== *)

Section FormatBytes.

(** One turn of the loop. *)
Lemma scaleLoop_step n div exp :
  scaleLoop n div exp =
  if Z_le_dec unit n
  then scaleLoop (n ÷ unit) (wrap64 (div * unit)) (wrap64 (exp + 1))
  else (div, exp).
Proof.
  rewrite scaleLoop_equation_1. destruct (Z_le_dec unit n); reflexivity.
Qed.

Lemma log2_quot_unit n : unit <= n -> Z.log2 (n ÷ unit) = Z.log2 n - 10.
Proof.
  unfold unit. intros Hn.
  rewrite Z.quot_div_nonneg by lia.
  change 1024 with (2 ^ 10). rewrite <- Z.shiftr_div_pow2 by lia.
  rewrite Z.log2_shiftr by lia.
  assert (Z.log2 (2 ^ 10) <= Z.log2 n) by (apply Z.log2_le_mono; lia).
  rewrite Z.log2_pow2 in H by lia. lia.
Qed.

Lemma pow_unit_succ k : 0 <= k -> unit ^ (k + 1) = unit * unit ^ k.
Proof. intros Hk. rewrite Z.pow_add_r, Z.pow_1_r by lia. lia. Qed.

(** The loop counts the divisions by 1024 that keep [n] at 1024 or more,
    and multiplies [div] as often, without overflow. *)
Lemma scaleLoop_spec (fuel : nat) : forall n div exp,
  Z.log2 n < Z.of_nat fuel ->
  1 <= n -> 0 < div -> div * n <= max_int64 ->
  0 <= exp -> exp + Z.log2 n <= max_int64 ->
  exists k, 0 <= k /\ unit ^ k <= n < unit ^ (k + 1)
            /\ scaleLoop n div exp = (div * unit ^ k, exp + k).
Proof.
  induction fuel as [|fuel IH]; intros n div exp Hfuel Hn Hdiv Hfit Hexp Hexpfit.
  - pose proof (Z.log2_nonneg n). lia.
  - rewrite scaleLoop_step. destruct (Z_le_dec unit n) as [Hge | Hlt].
    + pose proof (log2_quot_unit n Hge) as Hlog.
      assert (Hq : n ÷ unit = n / unit)
        by (apply Z.quot_div_nonneg; unfold unit; lia).
      assert (Hqpos : 1 <= n / unit)
        by (unfold unit in *; apply Z.div_le_lower_bound; lia).
      assert (Hqle : unit * (n / unit) <= n)
        by (unfold unit; apply Z.mul_div_le; lia).
      assert (Hqlt : n < unit * (n / unit + 1)).
      { unfold unit. pose proof (Z.mod_pos_bound n 1024 ltac:(lia)).
        pose proof (Z.div_mod n 1024 ltac:(lia)). lia. }
      assert (Hlog10 : 10 <= Z.log2 n).
      { change 10 with (Z.log2 (2 ^ 10)). apply Z.log2_le_mono. exact Hge. }
      assert (Hdivfit : in_int64 (div * unit)).
      { unfold in_int64, min_int64, max_int64, unit in *. nia. }
      assert (Hexpfit' : in_int64 (exp + 1)).
      { unfold in_int64, min_int64, max_int64 in *. lia. }
      rewrite (wrap64_small _ Hdivfit), (wrap64_small _ Hexpfit'), Hq.
      destruct (IH (n / unit) (div * unit) (exp + 1)) as (k & Hk & Hbounds & Heq).
      * rewrite <- Hq, Hlog. lia.
      * exact Hqpos.
      * unfold unit; lia.
      * unfold max_int64 in *. nia.
      * lia.
      * rewrite <- Hq, Hlog. lia.
      * exists (k + 1). split; [lia |].
        pose proof (pow_unit_succ k Hk) as Hp1.
        pose proof (pow_unit_succ (k + 1) ltac:(lia)) as Hp2.
        split.
        -- rewrite Hp2, Hp1 in *. nia.
        -- rewrite Heq, Hp1. f_equal; lia.
    + exists 0. rewrite !Z.pow_0_r, Z.add_0_l, Z.pow_1_r.
      split; [lia |]. split; [lia |]. f_equal; lia.
Qed.

(** Above 1023 the exponent found is the number [exp] with
    [1024 ^ (exp + 1) <= b < 1024 ^ (exp + 2)]; it is at most 5 and [div]
    is [1024 ^ (exp + 1)]. *)
Lemma scale_of_int64 b :
  unit <= b <= max_int64 ->
  exists exp, 0 <= exp <= 5
              /\ unit ^ (exp + 1) <= b < unit ^ (exp + 2)
              /\ scaleLoop (b ÷ unit) unit 0 = (unit ^ (exp + 1), exp).
Proof.
  intros [Hlo Hhi].
  assert (Hq : b ÷ unit = b / unit) by (apply Z.quot_div_nonneg; unfold unit in *; lia).
  assert (Hqpos : 1 <= b / unit)
    by (unfold unit in *; apply Z.div_le_lower_bound; lia).
  assert (Hqle : unit * (b / unit) <= b) by (unfold unit; apply Z.mul_div_le; lia).
  assert (Hqlt : b < unit * (b / unit + 1)).
  { unfold unit. pose proof (Z.mod_pos_bound b 1024 ltac:(lia)).
    pose proof (Z.div_mod b 1024 ltac:(lia)). lia. }
  assert (Hlog : Z.log2 (b / unit) < 64).
  { apply Z.log2_lt_pow2; [lia |]. unfold max_int64, unit in *. nia. }
  destruct (scaleLoop_spec 64 (b ÷ unit) unit 0) as (k & Hk & Hbounds & Heq).
  - rewrite Hq. exact Hlog.
  - rewrite Hq. exact Hqpos.
  - unfold unit; lia.
  - rewrite Hq. lia.
  - lia.
  - rewrite Hq. unfold max_int64. lia.
  - rewrite Hq in Hbounds.
    pose proof (pow_unit_succ k Hk) as Hp1.
    pose proof (pow_unit_succ (k + 1) ltac:(lia)) as Hp2.
    assert (Hb : unit ^ (k + 1) <= b < unit ^ (k + 2)).
    { replace (k + 2) with (k + 1 + 1) by lia.
      rewrite Hp2, Hp1 in *. nia. }
    assert (Hk5 : k <= 5).
    { destruct (Z_le_gt_dec k 5) as [Hle | Hgt]; [exact Hle | exfalso].
      assert (unit ^ 7 <= unit ^ (k + 1))
        by (apply Z.pow_le_mono_r; unfold unit; lia).
      unfold unit, max_int64 in *.
      change (1024 ^ 7) with 1180591620717411303424 in H. lia. }
    exists k. split; [lia |]. split; [exact Hb |].
    rewrite Heq, Hp1. reflexivity.
Qed.

Lemma index_suffixes exp :
  0 <= exp <= 5 -> exists c, index_string suffixes exp = Some c.
Proof.
  intros Hexp.
  assert (Hcases : exp = 0 \/ exp = 1 \/ exp = 2 \/ exp = 3 \/ exp = 4 \/ exp = 5)
    by lia.
  destruct Hcases as [-> | [-> | [-> | [-> | [-> | ->]]]]];
    eexists; reflexivity.
Qed.

End FormatBytes.

Section FormatFloat.

Import Float64.

Lemma round_half_even_nonneg n d : 0 <= n -> 0 <= d -> 0 <= round_half_even n d.
Proof.
  intros Hn Hd. unfold round_half_even.
  assert (Hq : 0 <= n / d).
  { destruct (Z.eq_dec d 0) as [-> | Hd0]; [rewrite Z.div_0_r; lia |].
    apply Z.div_pos; lia. }
  destruct (2 * (n mod d) ?= d); [destruct (Z.even (n / d)) | |]; lia.
Qed.

Lemma scaled_nonneg a d e :
  0 <= a -> 0 <= d -> 0 <= fst (scaled a d e) /\ 0 <= snd (scaled a d e).
Proof.
  intros Ha Hd. unfold scaled.
  destruct (0 <=? e); cbn [fst snd].
  - pose proof (Z.pow_nonneg 2 e ltac:(lia)). nia.
  - pose proof (Z.pow_nonneg 2 (- e) ltac:(lia)). nia.
Qed.

Lemma round53_nonneg n d : 0 <= n -> 0 <= d -> 0 <= mant (round53 n d).
Proof.
  intros Hn Hd. unfold round53.
  destruct (Z.abs n =? 0); [cbn; lia |].
  destruct (scaled (Z.abs n) d (Z.log2 (Z.abs n) - Z.log2 d - 53)) as [n0 d0].
  set (e := if 2 ^ 53 <=? n0 / d0 then _ else _).
  pose proof (scaled_nonneg (Z.abs n) d e ltac:(lia) Hd) as [H1 H2].
  destruct (scaled (Z.abs n) d e) as [n1 d1]. cbn [fst snd mant] in *.
  pose proof (round_half_even_nonneg n1 d1 H1 H2).
  pose proof (Z.sgn_nonneg n). nia.
Qed.

Lemma of_int64_nonneg b : 0 <= b -> 0 <= mant (of_int64 b).
Proof. intros Hb. apply round53_nonneg; lia. Qed.

Lemma div_nonneg x y : 0 <= mant x -> 0 <= mant y -> 0 <= mant (div x y).
Proof.
  intros Hx Hy. unfold div.
  pose proof (scaled_nonneg (mant x) 1 (- expo x) Hx ltac:(lia)) as [Hx1 Hx2].
  pose proof (scaled_nonneg (mant y) 1 (- expo y) Hy ltac:(lia)) as [Hy1 Hy2].
  destruct (scaled (mant x) 1 (- expo x)) as [nx dx].
  destruct (scaled (mant y) 1 (- expo y)) as [ny dy]. cbn [fst snd] in *.
  apply round53_nonneg.
  - pose proof (Z.sgn_nonneg ny). nia.
  - lia.
Qed.

Lemma tenths_nonneg x : 0 <= tenths x.
Proof.
  unfold tenths.
  pose proof (scaled_nonneg (10 * Z.abs (mant x)) 1 (- expo x) ltac:(lia) ltac:(lia))
    as [H1 H2].
  destruct (scaled (10 * Z.abs (mant x)) 1 (- expo x)) as [n d]. cbn [fst snd] in *.
  apply round_half_even_nonneg; assumption.
Qed.

Lemma digit_length z : 0 <= z <= 9 -> String.length (string_of_Z z) = 1%nat.
Proof.
  intros Hz.
  assert (Hcases : z = 0 \/ z = 1 \/ z = 2 \/ z = 3 \/ z = 4 \/ z = 5 \/ z = 6
                   \/ z = 7 \/ z = 8 \/ z = 9) by lia.
  repeat (destruct Hcases as [-> | Hcases]; [reflexivity |]). subst z. reflexivity.
Qed.

(** ["%.1f"] of a value that is not negative: the digits of the whole
    part, a point, and exactly one digit. *)
Lemma format_1f_shape x :
  0 <= mant x ->
  exists whole tenth,
    0 <= whole /\ 0 <= tenth <= 9 /\ tenths x = 10 * whole + tenth
    /\ String.length (string_of_Z tenth) = 1%nat
    /\ format_1f x = (string_of_Z whole ++ "." ++ string_of_Z tenth)%string.
Proof.
  intros Hx. exists (tenths x / 10), (tenths x mod 10).
  pose proof (tenths_nonneg x) as Ht.
  pose proof (Z.mod_pos_bound (tenths x) 10 ltac:(lia)) as Hm.
  split; [apply Z.div_pos; lia |]. split; [lia |].
  split; [apply Z.div_mod; lia |].
  split; [apply digit_length; lia |].
  unfold format_1f. destruct (Z.ltb_spec (mant x) 0); [lia | reflexivity].
Qed.

End FormatFloat.

Lemma append_assoc (s1 s2 s3 : string) :
  ((s1 ++ s2) ++ s3 = s1 ++ (s2 ++ s3))%string.
Proof. induction s1 as [|c s1 IH]; cbn; [reflexivity | rewrite IH; reflexivity]. Qed.

Lemma unit_pow_nonneg k : 0 <= k -> 0 < unit ^ k.
Proof. intros Hk. apply Z.pow_pos_nonneg; unfold unit; lia. Qed.

(** C10. On every [int64] input [formatBytes] returns a string and never
    indexes ["KMGTPE"] out of bounds: for [b >= 1024] the exponent it
    computes is at most 5, the last index, since an [int64] stays below
    [1024 ^ 7], and [div] does not overflow; every input below 1024,
    negative ones included, is printed as a plain integer of bytes. *)
Theorem formatBytes_total_on_int64 b :
  in_int64 b ->
  (exists s, formatBytes b = Some s)
  /\ (b < unit -> formatBytes b = Some (string_of_Z b ++ " B")%string)
  /\ (unit <= b ->
      b < unit ^ 7
      /\ exists exp,
          scaleLoop (b ÷ unit) unit 0 = (unit ^ (exp + 1), exp)
          /\ 0 <= exp <= 5
          /\ in_int64 (unit ^ (exp + 1))
          /\ index_string suffixes exp <> None).
Proof.
  intros [Hlo Hhi].
  assert (Hsmall : b < unit -> formatBytes b = Some (string_of_Z b ++ " B")%string).
  { intros Hb. unfold formatBytes. destruct (Z.ltb_spec b unit); [reflexivity | lia]. }
  assert (Hlarge : unit <= b ->
                   exists exp, scaleLoop (b ÷ unit) unit 0 = (unit ^ (exp + 1), exp)
                               /\ 0 <= exp <= 5
                               /\ in_int64 (unit ^ (exp + 1))
                               /\ index_string suffixes exp <> None).
  { intros Hb.
    destruct (scale_of_int64 b (conj Hb Hhi)) as (exp & Hexp & Hbounds & Hloop).
    destruct (index_suffixes exp Hexp) as [c Hc].
    exists exp. split; [exact Hloop |]. split; [exact Hexp |]. split.
    - pose proof (unit_pow_nonneg (exp + 1) ltac:(lia)).
      unfold in_int64, min_int64, max_int64 in *. lia.
    - rewrite Hc. discriminate. }
  split; [| split; [exact Hsmall |]].
  - destruct (Z_lt_le_dec b unit) as [Hb | Hb].
    + eexists. apply Hsmall, Hb.
    + destruct (Hlarge Hb) as (exp & Hloop & Hexp & _ & Hidx).
      unfold formatBytes. destruct (Z.ltb_spec b unit); [lia |].
      rewrite Hloop. destruct (index_string suffixes exp); [| congruence].
      eexists. reflexivity.
  - intros Hb. split; [| apply Hlarge, Hb].
    unfold max_int64, unit in *. change (1024 ^ 7) with 1180591620717411303424. lia.
Qed.

(** Outputs of [formatBytes], the last three as the project's README shows
    them. *)
Example formatBytes_outputs :
  map formatBytes [0; 1023; 1024; 1536; 1048575; max_int64; 128000; 5557453]
  = map Some ["0 B"; "1023 B"; "1.0 KB"; "1.5 KB"; "1024.0 KB"; "8.0 EB";
              "125.0 KB"; "5.3 MB"]%string.
Proof. vm_compute. reflexivity. Qed.

(** The conversion and the quotient agree with the IEEE 754 model of the
    Standard Library on sample inputs, rounded ones included. *)
Example float64_agrees_with_SpecFloat :
  forallb
    (fun '(b, d) =>
       Float64.same_value (Float64.sf_of_int64 b) (Float64.of_int64 b)
       && Float64.same_value
            (Float64.sf_div (Float64.sf_of_int64 b) (Float64.sf_of_int64 d))
            (Float64.div (Float64.of_int64 b) (Float64.of_int64 d)))
    [ (1024, 2 ^ 10); (1536, 2 ^ 10); (1048575, 2 ^ 10); (5557453, 2 ^ 20);
      (2 ^ 53 + 1, 2 ^ 50); (2 ^ 53 + 3, 2 ^ 50); (2 ^ 63 - 1, 2 ^ 60);
      (123456789123456789, 2 ^ 50); (10, 3); (2 ^ 62 + 12345, 7) ]
  = true.
Proof. vm_compute. reflexivity. Qed.

(** The integer written for [float64(b)] is the value the IEEE 754 model of
    the Standard Library gives the conversion, on inputs from [2 ^ 53] on. *)
Example nearestFloat64_agrees_with_SpecFloat :
  forallb
    (fun b => Float64.same_value (Float64.sf_of_int64 b) (Float64.mk (nearestFloat64 b) 0))
    [ 2 ^ 53; 2 ^ 53 + 1; 2 ^ 53 + 3; 2 ^ 54 + 2; 2 ^ 54 + 6; 2 ^ 60 + 2 ^ 7;
      2 ^ 60 + 3 * 2 ^ 7; 123456789123456789; 2 ^ 62 + 12345; 2 ^ 63 - 1 ]
  = true.
Proof. vm_compute. reflexivity. Qed.

(* ===================================================================== *)
(** * The theorems at concrete inputs *)
(* ===================================================================== *)

Lemma totalCount_counts_every_nondirectory_witness :
  resErr (@listRootWithSizes insertionSorter inOrder scenario true) = None
  /\ resTotalCount (@listRootWithSizes insertionSorter inOrder scenario true)
     = codeTotalCount true scenario.
Proof.
  split; [reflexivity |].
  apply (@totalCount_counts_every_nondirectory true insertionSorter inOrder scenario
           eq_refl).
  vm_compute. split; discriminate.
Defined.

Lemma totalSize_sums_entry_sizes_witness :
  resErr (@listRootWithSizes insertionSorter inOrder scenario false) = None
  /\ resTotalSize (@listRootWithSizes insertionSorter inOrder scenario false)
     = wrap64 (Zsum (map Size
         (resEntries (@listRootWithSizes insertionSorter inOrder scenario false)))).
Proof.
  split; [reflexivity |].
  exact (proj1 (@totalSize_sums_entry_sizes insertionSorter inOrder scenario false
                  eq_refl)).
Defined.

Lemma entries_sorted_by_size_desc_witness :
  nth_error (resEntries (@listRootWithSizes insertionSorter inOrder scenario false)) 0
  = Some (mkEntry "sub" 200 "dir")
  /\ nth_error (resEntries (@listRootWithSizes insertionSorter inOrder scenario false)) 1
     = Some (mkEntry "a.txt" 100 "file")
  /\ Size (mkEntry "sub" 200 "dir") >= Size (mkEntry "a.txt" 100 "file").
Proof.
  split; [reflexivity |]. split; [reflexivity |].
  apply (@entries_sorted_by_size_desc insertionSorter inOrder scenario false 0
           (mkEntry "sub" 200 "dir") (mkEntry "a.txt" 100 "file"));
    reflexivity.
Defined.

Lemma formatBytes_total_on_int64_witness :
  in_int64 (-5) /\ exists s, formatBytes (-5) = Some s.
Proof.
  assert (H : in_int64 (-5)) by (unfold in_int64, min_int64, max_int64; lia).
  split; [exact H |].
  exact (proj1 (formatBytes_total_on_int64 (-5) H)).
Defined.

Example main_on_directory :
  @main insertionSorter inOrder sampleWorld ["dir"; "-a"]%string
  = Printed (newline ++ "Contents of: /home/user/dir" ++ newline
     ++ separator ++ newline
     ++ "DIR    210 B           sub" ++ newline
     ++ "FILE   100 B           a.txt" ++ newline
     ++ "FILE   50 B            .hidden.txt" ++ newline
     ++ separator ++ newline
     ++ "TOTAL: 360 B (4 files)" ++ newline)%string.
Proof. vm_compute. reflexivity. Qed.

Example main_on_file :
  @main insertionSorter inOrder sampleWorld ["-a"; "notes.txt"; "dir"]%string
  = Printed (newline ++ "File: /home/user/notes.txt" ++ newline
               ++ "Size: 1.5 KB" ++ newline)%string.
Proof. vm_compute. reflexivity. Qed.

(* ===================================================================== *)
(** * The arguments of [main] *)
(* ===================================================================== *)

Section ParseArgs.

Lemma length_0_eqb t : (String.length t =? 0)%nat = String.eqb t "".
Proof. destruct t; reflexivity. Qed.

(** The argument loop from any state. *)
Lemma parseStep_fold args : forall target showAll,
  fold_left parseStep args (target, showAll)
  = ((if String.eqb target "" then
        match find isPathArg args with Some arg => arg | None => ""%string end
      else target),
     showAll || existsb (fun arg => String.eqb arg "-a") args).
Proof.
  induction args as [|arg args IH]; intros target showAll; cbn [fold_left find existsb].
  - rewrite orb_false_r.
    destruct (String.eqb_spec target ""); [subst target |]; reflexivity.
  - unfold parseStep at 2, isPathArg. rewrite length_0_eqb.
    destruct (String.eqb arg "-a") eqn:Hflag; cbn [negb andb orb].
    + rewrite IH, orb_true_r. reflexivity.
    + destruct (String.eqb target "") eqn:Htarget.
      * rewrite IH. destruct (String.eqb_spec arg ""); [subst arg |]; reflexivity.
      * rewrite IH, Htarget. reflexivity.
Qed.

Lemma find_isPathArg_nonempty args arg :
  find isPathArg args = Some arg -> String.eqb arg "" = false /\ String.eqb arg "-a" = false.
Proof.
  intros Hfind. apply find_some in Hfind as [_ Hpath]. unfold isPathArg in Hpath.
  apply andb_prop in Hpath as [H1 H2].
  split; [destruct (String.eqb arg ""); [discriminate | reflexivity]
         | destruct (String.eqb arg "-a"); [discriminate | reflexivity]].
Qed.

(** [parseArgs] in closed form. *)
Lemma parseArgs_eq args :
  parseArgs args
  = (match find isPathArg args with Some arg => arg | None => "."%string end,
     existsb (fun arg => String.eqb arg "-a") args).
Proof.
  unfold parseArgs. rewrite parseStep_fold. cbn [String.eqb orb]. f_equal.
  destruct (find isPathArg args) as [arg|] eqn:Hfind; [| reflexivity].
  destruct (find_isPathArg_nonempty args arg Hfind) as [Hne _].
  rewrite Hne. reflexivity.
Qed.

Lemma find_app {A} (p : A -> bool) l1 l2 :
  find p (l1 ++ l2) = match find p l1 with Some x => Some x | None => find p l2 end.
Proof.
  induction l1 as [|x l1 IH]; cbn; [reflexivity |]. destruct (p x); [reflexivity | exact IH].
Qed.

(** X1. The flag is recognised wherever it stands: [showAll] is set exactly when
    some argument is ["-a"]. *)
Theorem parseArgs_showAll args :
  snd (parseArgs args) = true <-> In "-a"%string args.
Proof.
  rewrite parseArgs_eq. cbn [snd]. rewrite existsb_exists. split.
  - intros (arg & Hin & Heq). apply String.eqb_eq in Heq. subst arg. exact Hin.
  - intros Hin. exists "-a"%string. split; [exact Hin | reflexivity].
Qed.

(** X2. The target is the first argument that is neither ["-a"] nor empty, the
    arguments after it being ignored, and ["."] when there is none. *)
Theorem parseArgs_target before arg after :
  Forall (fun a => a = "-a"%string \/ a = ""%string) before ->
  (fst (parseArgs before) = "."%string)
  /\ (arg <> "-a"%string -> arg <> ""%string ->
      fst (parseArgs (before ++ arg :: after)) = arg).
Proof.
  intros Hbefore.
  assert (Hnone : find isPathArg before = None).
  { induction Hbefore as [|a l Ha _ IH]; [reflexivity |].
    cbn [find]. unfold isPathArg at 1.
    destruct Ha as [-> | ->]; cbn; exact IH. }
  split.
  - rewrite parseArgs_eq, Hnone. reflexivity.
  - intros Hflag Hempty. rewrite parseArgs_eq, find_app, Hnone. cbn [find fst].
    unfold isPathArg. apply String.eqb_neq in Hflag, Hempty.
    rewrite Hflag, Hempty. reflexivity.
Qed.

(** X3. The flag may stand anywhere: with ["-a"] at any position the target is
    the one parsed without it, and [showAll] is set. *)
Theorem parseArgs_flag_anywhere before after :
  parseArgs (before ++ "-a"%string :: after)
  = (fst (parseArgs (before ++ after)), true).
Proof.
  rewrite !parseArgs_eq, !find_app, existsb_app. cbn [find existsb fst].
  unfold isPathArg at 2. cbn [String.eqb Ascii.eqb Bool.eqb negb andb orb].
  rewrite orb_true_r. reflexivity.
Qed.

(** X4. The target is never empty and never the flag. *)
Theorem parseArgs_target_is_a_path args :
  fst (parseArgs args) <> ""%string /\ fst (parseArgs args) <> "-a"%string.
Proof.
  rewrite parseArgs_eq. cbn [fst].
  destruct (find isPathArg args) as [arg|] eqn:Hfind.
  - destruct (find_isPathArg_nonempty args arg Hfind) as [H1 H2].
    apply String.eqb_neq in H1, H2. split; assumption.
  - split; discriminate.
Qed.

End ParseArgs.

(* ===================================================================== *)
(** * More on the walk and on the scan *)
(* ===================================================================== *)

Lemma Permutation_filter' {A} (p : A -> bool) l l' :
  Permutation l l' -> Permutation (filter p l) (filter p l').
Proof.
  induction 1 as [| x l l' _ IH | x y l | l l' l'' _ IH1 _ IH2]; cbn.
  - constructor.
  - destruct (p x); [apply perm_skip |]; exact IH.
  - destruct (p x), (p y); try apply Permutation_refl. apply perm_swap.
  - eapply perm_trans; eassumption.
Qed.

(** X5. The order in which the entries of the top directory are read does not
    change what [sizeDir] returns. *)
Theorem sizeDir_children_order name lstat readdir cs cs' showAll :
  Permutation cs cs' ->
  sizeDir (Dir name lstat readdir cs) showAll
  = sizeDir (Dir name lstat readdir cs') showAll.
Proof.
  intros Hperm. rewrite !sizeDir_eq. cbn [DirEntry.Lstat measureTree].
  destruct lstat; [reflexivity |].
  destruct (excluded showAll name); [reflexivity |].
  rewrite (Zsum_perm _ _ (Permutation_map (measureTree walkedBytes showAll) Hperm)).
  rewrite (Zsum_perm _ _ (Permutation_map (measureTree walkedCount showAll) Hperm)).
  reflexivity.
Qed.

Section Hidden.

Lemma stripHidden_Dir name lstat readdir children :
  stripHidden (Dir name lstat readdir children)
  = Dir name lstat readdir (stripHiddenList children).
Proof. reflexivity. Qed.

Lemma stripHidden_Name d : DirEntry.Name (stripHidden d) = DirEntry.Name d.
Proof. destruct d; reflexivity. Qed.

Lemma stripHidden_IsDir d : DirEntry.IsDir (stripHidden d) = DirEntry.IsDir d.
Proof. destruct d; reflexivity. Qed.

Lemma stripHidden_Lstat d : DirEntry.Lstat (stripHidden d) = DirEntry.Lstat d.
Proof. destruct d; reflexivity. Qed.

Lemma stripHidden_File d : DirEntry.IsDir d = false -> stripHidden d = d.
Proof. destruct d; [reflexivity | discriminate]. Qed.

Lemma excluded_false name : excluded false name = isHidden name.
Proof. reflexivity. Qed.

Lemma measureTree_stripHidden leaf d :
  measureTree leaf false (stripHidden d) = measureTree leaf false d.
Proof.
  induction d as [name mode info | name lstat readdir children IH]
    using Node_ind_children; [reflexivity |].
  rewrite stripHidden_Dir. cbn [measureTree].
  destruct (excluded false name); [reflexivity |].
  induction IH as [|c cs Hc _ IHcs]; [reflexivity |].
  cbn [stripHiddenList]. destruct (isHidden (DirEntry.Name c)) eqn:Hhid.
  - rewrite map_cons, Zsum_cons, IHcs.
    assert (Hzero : measureTree leaf false c = 0).
    { destruct c; cbn [measureTree DirEntry.Name] in *;
        rewrite excluded_false, Hhid; reflexivity. }
    rewrite Hzero. reflexivity.
  - rewrite !map_cons, !Zsum_cons, IHcs, Hc. reflexivity.
Qed.

Lemma measureDir_stripHidden leaf d :
  measureDir leaf false (stripHidden d) = measureDir leaf false d.
Proof.
  unfold measureDir. rewrite stripHidden_Lstat, measureTree_stripHidden. reflexivity.
Qed.

(** X6. Without [showAll], [sizeDir] returns what it returns on the tree with
    every hidden entry removed, at every depth: nothing hidden, and
    nothing beneath a hidden directory, reaches the result. *)
Theorem sizeDir_ignores_hidden d :
  sizeDir (stripHidden d) false = sizeDir d false.
Proof.
  rewrite !sizeDir_eq, stripHidden_Lstat, !measureTree_stripHidden. reflexivity.
Qed.

Lemma worker_stripHidden d : worker false (stripHidden d) = worker false d.
Proof.
  rewrite !worker_eq. unfold dirEntryOf.
  rewrite stripHidden_Name, !measureDir_stripHidden. reflexivity.
Qed.

Lemma measureChild_stripHidden topLeaf leaf d :
  measureChild topLeaf leaf false (stripHidden d) = measureChild topLeaf leaf false d.
Proof.
  unfold measureChild. rewrite stripHidden_Name, stripHidden_IsDir.
  destruct (excluded false (DirEntry.Name d)); [reflexivity |].
  destruct (DirEntry.IsDir d) eqn:Hdir.
  - fold (measureDir leaf false (stripHidden d)). fold (measureDir leaf false d).
    apply measureDir_stripHidden.
  - rewrite (stripHidden_File d Hdir). reflexivity.
Qed.

Lemma measureChild_hidden topLeaf leaf d :
  isHidden (DirEntry.Name d) = true -> measureChild topLeaf leaf false d = 0.
Proof. intros Hhid. unfold measureChild. rewrite excluded_false, Hhid. reflexivity. Qed.

Lemma stripHidden_Info d : DirEntry.Info (stripHidden d) = DirEntry.Info d.
Proof. destruct d; reflexivity. Qed.

Lemma listedFile_stripHidden showAll d :
  listedFile showAll (stripHidden d) = listedFile showAll d.
Proof.
  unfold listedFile. rewrite stripHidden_Name, stripHidden_IsDir, stripHidden_Info.
  reflexivity.
Qed.

Lemma isSubdir_stripHidden showAll d :
  isSubdir showAll (stripHidden d) = isSubdir showAll d.
Proof. unfold isSubdir. rewrite stripHidden_Name, stripHidden_IsDir. reflexivity. Qed.

Lemma listedFile_hidden d :
  isHidden (DirEntry.Name d) = true -> listedFile false d = false.
Proof. intros Hhid. unfold listedFile. rewrite excluded_false, Hhid. reflexivity. Qed.

Lemma isSubdir_hidden d :
  isHidden (DirEntry.Name d) = true -> isSubdir false d = false.
Proof. intros Hhid. unfold isSubdir. rewrite excluded_false, Hhid. reflexivity. Qed.

Lemma listedFile_IsDir showAll d : listedFile showAll d = true -> DirEntry.IsDir d = false.
Proof.
  unfold listedFile. destruct (DirEntry.IsDir d); [| reflexivity].
  rewrite andb_false_r. discriminate.
Qed.

Lemma fileEntries_stripHidden ch :
  fileEntries false (stripHiddenList ch) = fileEntries false ch.
Proof.
  unfold fileEntries. induction ch as [|c ch IH]; [reflexivity |].
  cbn [stripHiddenList filter].
  destruct (isHidden (DirEntry.Name c)) eqn:Hhid.
  - rewrite (listedFile_hidden c Hhid). exact IH.
  - cbn [filter]. rewrite listedFile_stripHidden.
    destruct (listedFile false c) eqn:Hfile; [| exact IH].
    rewrite (stripHidden_File c (listedFile_IsDir false c Hfile)).
    cbn [map]. rewrite IH. reflexivity.
Qed.

Lemma workers_stripHidden ch :
  map (worker false) (subdirs false (stripHiddenList ch))
  = map (worker false) (subdirs false ch).
Proof.
  unfold subdirs. induction ch as [|c ch IH]; [reflexivity |].
  cbn [stripHiddenList filter].
  destruct (isHidden (DirEntry.Name c)) eqn:Hhid.
  - rewrite (isSubdir_hidden c Hhid). exact IH.
  - cbn [filter]. rewrite isSubdir_stripHidden.
    destruct (isSubdir false c); [| exact IH].
    cbn [map]. rewrite worker_stripHidden, IH. reflexivity.
Qed.

Lemma measureRoot_stripHidden topLeaf leaf root :
  measureRoot topLeaf leaf false (stripHidden root) = measureRoot topLeaf leaf false root.
Proof.
  unfold measureRoot. destruct root as [name mode info | name lstat readdir ch];
    [reflexivity |].
  rewrite stripHidden_Dir. cbn [DirEntry.ReadDir fst].
  induction ch as [|c ch IH]; [reflexivity |].
  cbn [stripHiddenList]. destruct (isHidden (DirEntry.Name c)) eqn:Hhid.
  - rewrite map_cons, Zsum_cons, IH, (measureChild_hidden _ _ c Hhid). reflexivity.
  - rewrite !map_cons, !Zsum_cons, IH, measureChild_stripHidden. reflexivity.
Qed.

Context {sorter : SortSlice} {pool : Scheduler}.

(** X7. Without [showAll], the scan returns exactly what it returns on the tree
    with every hidden entry removed, at every depth. *)
Theorem listRoot_ignores_hidden root :
  listRootWithSizes (stripHidden root) false = listRootWithSizes root false.
Proof.
  destruct root as [name mode info | name lstat readdir ch]; [reflexivity |].
  destruct readdir as [e|].
  - reflexivity.
  - rewrite (listRoot_eq false (stripHidden (Dir name lstat None ch))
               (stripHiddenList ch) eq_refl).
    rewrite (listRoot_eq false (Dir name lstat None ch) ch eq_refl).
    unfold gathered, codeTotalSize, codeTotalCount.
    rewrite fileEntries_stripHidden, workers_stripHidden, !measureRoot_stripHidden.
    reflexivity.
Qed.

End Hidden.

Section ScanShape.

Context {sorter : SortSlice} {pool : Scheduler}.
Variable showAll : bool.

(** X8. The scan fails exactly when the listing of the root fails, with the
    error of that listing; nothing beneath the root makes it fail.  A failed
    scan returns no entry and zero totals. *)
Theorem listRoot_error_is_ReadDir_error root :
  resErr (listRootWithSizes root showAll) = snd (DirEntry.ReadDir root)
  /\ (resErr (listRootWithSizes root showAll) <> None ->
      listRootWithSizes root showAll
      = ([], 0, 0, resErr (listRootWithSizes root showAll))).
Proof.
  destruct (DirEntry.ReadDir root) as [ch [e|]] eqn:Hread; cbn [snd].
  - rewrite (listRoot_unreadable showAll root ch e Hread). split; reflexivity.
  - rewrite (listRoot_eq showAll root ch Hread). cbn [resErr].
    split; [reflexivity | congruence].
Qed.

Lemma listed_split d :
  listed showAll d = listedFile showAll d || isSubdir showAll d.
Proof.
  unfold listed, listedFile, isSubdir.
  destruct (excluded showAll (DirEntry.Name d)), (DirEntry.IsDir d),
    (DirEntry.Info d); reflexivity.
Qed.

Lemma entries_of_children ch :
  Permutation
    (fileEntries showAll ch ++ map (dirEntryOf showAll) (subdirs showAll ch))
    (map (entryOfChild showAll) (filter (listed showAll) ch)).
Proof.
  unfold fileEntries, subdirs. induction ch as [|c ch IH]; [constructor |].
  cbn [filter]. rewrite listed_split.
  destruct (listedFile showAll c) eqn:Hfile.
  - rewrite (listedFile_not_subdir showAll c Hfile). cbn [orb map app].
    unfold entryOfChild at 1. rewrite (listedFile_IsDir showAll c Hfile).
    apply perm_skip, IH.
  - destruct (isSubdir showAll c) eqn:Hsub; cbn [orb map]; [| exact IH].
    unfold entryOfChild at 1. unfold isSubdir in Hsub.
    apply andb_prop in Hsub as [_ Hdir]. rewrite Hdir.
    eapply perm_trans; [apply Permutation_sym, Permutation_middle |].
    apply perm_skip, IH.
Qed.

Lemma gathered_children ch :
  Permutation (gathered showAll ch)
    (map (entryOfChild showAll) (filter (listed showAll) ch)).
Proof.
  eapply perm_trans; [| apply entries_of_children].
  unfold gathered. apply Permutation_app_head.
  eapply perm_trans; [apply Permutation_map, Permutation_sym, deliver_perm |].
  rewrite map_map.
  rewrite (map_ext _ (dirEntryOf showAll))
    by (intros d; rewrite worker_eq; reflexivity).
  apply Permutation_refl.
Qed.

(** The entries of a successful scan, up to their order. *)
Lemma scan_entries root ch :
  DirEntry.ReadDir root = (ch, None) ->
  Permutation (resEntries (listRootWithSizes root showAll))
    (map (entryOfChild showAll) (filter (listed showAll) ch)).
Proof.
  intros Hread. rewrite (listRoot_eq showAll root ch Hread). cbn [resEntries].
  eapply perm_trans; [apply Permutation_sym, sortSlice_perm |].
  apply gathered_children.
Qed.

(** X9. A successful scan returns one entry for each immediate child that the
    hidden-name policy keeps and that is a directory or a non-directory
    with readable metadata, and no other entry: the entry of a directory has
    type ["dir"] and the size [sizeDir] found, the entry of anything else has
    type ["file"] and the size [Info()] reports.  So there are as many
    entries as such children, never more than the root has children. *)
Theorem listRoot_one_entry_per_child root ch :
  DirEntry.ReadDir root = (ch, None) ->
  Permutation (resEntries (listRootWithSizes root showAll))
    (map (entryOfChild showAll) (filter (listed showAll) ch))
  /\ List.length (resEntries (listRootWithSizes root showAll))
     = List.length (filter (listed showAll) ch)
  /\ (List.length (resEntries (listRootWithSizes root showAll)) <= List.length ch)%nat.
Proof.
  intros Hread. pose proof (scan_entries root ch Hread) as Hperm.
  assert (Hlen : List.length (resEntries (listRootWithSizes root showAll))
                 = List.length (filter (listed showAll) ch)).
  { rewrite (Permutation_length Hperm). apply length_map. }
  split; [exact Hperm |]. split; [exact Hlen |].
  rewrite Hlen. apply filter_length_le.
Qed.

Lemma entryOfChild_Name d : Name (entryOfChild showAll d) = DirEntry.Name d.
Proof. unfold entryOfChild. destruct (DirEntry.IsDir d); reflexivity. Qed.

(** X10. Every entry a scan returns carries the name of an immediate child that
    the hidden-name policy keeps: without [showAll] no returned name starts
    with a period; and its type is ["dir"] exactly when that child is a
    directory, ["file"] otherwise. *)
Theorem listRoot_entries_are_shown_children root e :
  In e (resEntries (listRootWithSizes root showAll)) ->
  excluded showAll (Name e) = false
  /\ exists d, In d (fst (DirEntry.ReadDir root))
               /\ DirEntry.Name d = Name e
               /\ Type_ e = (if DirEntry.IsDir d then "dir" else "file")%string.
Proof.
  intros Hin.
  destruct (DirEntry.ReadDir root) as [ch [err|]] eqn:Hread.
  - rewrite (listRoot_unreadable showAll root ch err Hread) in Hin. destruct Hin.
  - apply (Permutation_in _ (scan_entries root ch Hread)) in Hin.
    apply in_map_iff in Hin as (d & <- & Hd).
    apply filter_In in Hd as [Hd Hlisted].
    rewrite entryOfChild_Name. split.
    + unfold listed in Hlisted. apply andb_prop in Hlisted as [Hshown _].
      destruct (excluded showAll (DirEntry.Name d)); [discriminate | reflexivity].
    + exists d. split; [exact Hd |]. split; [reflexivity |].
      unfold entryOfChild. destruct (DirEntry.IsDir d); reflexivity.
Qed.

(** X11. The order in which [os.ReadDir] returns the children of the root does
    not change the totals, and changes the entries by a permutation at
    most. *)
Theorem listRoot_children_order name lstat ch ch' :
  Permutation ch ch' ->
  let r := listRootWithSizes (Dir name lstat None ch) showAll in
  let r' := listRootWithSizes (Dir name lstat None ch') showAll in
  resTotalSize r = resTotalSize r'
  /\ resTotalCount r = resTotalCount r'
  /\ Permutation (resEntries r) (resEntries r').
Proof.
  intros Hperm r r'. subst r r'.
  pose proof (scan_entries (Dir name lstat None ch) ch eq_refl) as H1.
  pose proof (scan_entries (Dir name lstat None ch') ch' eq_refl) as H2.
  split; [| split].
  - rewrite (listRoot_eq showAll (Dir name lstat None ch) ch eq_refl).
    rewrite (listRoot_eq showAll (Dir name lstat None ch') ch' eq_refl).
    cbn [resTotalSize]. unfold codeTotalSize, measureRoot. cbn [DirEntry.ReadDir fst].
    rewrite (Zsum_perm _ _ (Permutation_map _ Hperm)). reflexivity.
  - rewrite (listRoot_eq showAll (Dir name lstat None ch) ch eq_refl).
    rewrite (listRoot_eq showAll (Dir name lstat None ch') ch' eq_refl).
    cbn [resTotalCount]. unfold codeTotalCount, measureRoot. cbn [DirEntry.ReadDir fst].
    rewrite (Zsum_perm _ _ (Permutation_map _ Hperm)). reflexivity.
  - eapply perm_trans; [exact H1 |].
    eapply perm_trans; [| apply Permutation_sym, H2].
    apply Permutation_map, Permutation_filter', Hperm.
Qed.

(** X12. One more readable, shown non-directory among the children of the root
    adds its size to [totalSize], one to [totalCount] and one entry of type
    ["file"] to the list, and leaves the rest as it is. *)
Theorem listRoot_with_one_more_file rname rl pre post name mode sz :
  excluded showAll name = false ->
  let r := listRootWithSizes
             (Dir rname rl None (pre ++ File name mode (Some sz) :: post)) showAll in
  let r' := listRootWithSizes (Dir rname rl None (pre ++ post)) showAll in
  resTotalSize r = wrap64 (resTotalSize r' + sz)
  /\ resTotalCount r = wrap64 (resTotalCount r' + 1)
  /\ Permutation (resEntries r) (mkEntry name sz "file" :: resEntries r').
Proof.
  intros Hshown r r'. subst r r'.
  set (f := File name mode (Some sz)).
  pose proof (scan_entries (Dir rname rl None (pre ++ f :: post))
                (pre ++ f :: post) eq_refl) as H1.
  pose proof (scan_entries (Dir rname rl None (pre ++ post))
                (pre ++ post) eq_refl) as H2.
  rewrite (listRoot_eq showAll (Dir rname rl None (pre ++ f :: post))
             (pre ++ f :: post) eq_refl) in *.
  rewrite (listRoot_eq showAll (Dir rname rl None (pre ++ post)) (pre ++ post) eq_refl)
    in *.
  cbn [resTotalSize resTotalCount resEntries] in *.
  assert (Hsize : measureChild infoSize walkedBytes showAll f = sz).
  { unfold measureChild, f. cbn [DirEntry.Name DirEntry.IsDir]. rewrite Hshown.
    reflexivity. }
  assert (Hcount : measureChild infoCount walkedCount showAll f = 1).
  { unfold measureChild, f. cbn [DirEntry.Name DirEntry.IsDir]. rewrite Hshown.
    reflexivity. }
  split; [| split].
  - rewrite wrap64_add_l. f_equal. unfold codeTotalSize, measureRoot.
    cbn [DirEntry.ReadDir fst].
    rewrite !map_app, !Zsum_app, map_cons, Zsum_cons, Hsize. lia.
  - rewrite wrap64_add_l. f_equal. unfold codeTotalCount, measureRoot.
    cbn [DirEntry.ReadDir fst].
    rewrite !map_app, !Zsum_app, map_cons, Zsum_cons, Hcount. lia.
  - eapply perm_trans; [exact H1 |].
    eapply perm_trans; [| apply perm_skip, Permutation_sym, H2].
    rewrite !filter_app. cbn [filter].
    assert (Hlisted : listed showAll f = true).
    { unfold listed, f. cbn [DirEntry.Name DirEntry.IsDir DirEntry.Info].
      rewrite Hshown. reflexivity. }
    rewrite Hlisted, !map_app, map_cons.
    eapply perm_trans; [apply Permutation_sym, Permutation_middle |].
    apply Permutation_refl.
Qed.

End ScanShape.

(* ===================================================================== *)
(** * The range and the width of what [formatBytes] prints *)
(* ===================================================================== *)

Section FloatBounds.

Import Float64.

Lemma round_half_even_le n d N : 0 < d -> n <= d * N -> round_half_even n d <= N.
Proof.
  intros Hd Hn. unfold round_half_even.
  pose proof (Z.div_mod n d ltac:(lia)) as Hdm.
  pose proof (Z.mod_pos_bound n d Hd) as Hm.
  assert (Hq : n / d <= N) by (apply Z.div_le_upper_bound; lia).
  destruct (Z.compare_spec (2 * (n mod d)) d) as [Heq | Hlt | Hgt].
  - destruct (Z.even (n / d)); [lia |]. nia.
  - lia.
  - nia.
Qed.

Lemma round_half_even_ge n d N : 0 < d -> d * N <= n -> N <= round_half_even n d.
Proof.
  intros Hd Hn. unfold round_half_even.
  assert (Hq : N <= n / d) by (apply Z.div_le_lower_bound; lia).
  destruct (2 * (n mod d) ?= d); [destruct (Z.even (n / d)) | |]; lia.
Qed.

(** Both branches of [scaled] at once. *)
Lemma scaled_eq a d e :
  scaled a d e = (a * 2 ^ Z.max 0 (- e), d * 2 ^ Z.max 0 e).
Proof.
  unfold scaled. destruct (Z.leb_spec 0 e).
  - rewrite (Z.max_l 0 (- e)), (Z.max_r 0 e) by lia. rewrite Z.pow_0_r. f_equal. lia.
  - rewrite (Z.max_r 0 (- e)), (Z.max_l 0 e) by lia. rewrite Z.pow_0_r. f_equal. lia.
Qed.

Lemma fnum_eq x : fnum x = mant x * 2 ^ Z.max 0 (expo x).
Proof.
  unfold fnum. rewrite scaled_eq. cbn [fst]. rewrite Z.opp_involutive. reflexivity.
Qed.

Lemma fden_eq x : fden x = 2 ^ Z.max 0 (- expo x).
Proof. unfold fden. rewrite scaled_eq. cbn [snd]. lia. Qed.

Lemma pow2_pos z : 0 < 2 ^ Z.max 0 z.
Proof. apply Z.pow_pos_nonneg; lia. Qed.

Lemma fden_pos x : 0 < fden x.
Proof. rewrite fden_eq. apply pow2_pos. Qed.

(** The exponent [round53] settles on leaves a mantissa of at least 1. *)
Lemma round53_exponent n d e :
  0 < n -> 0 < d -> e <= Z.log2 n - Z.log2 d - 52 ->
  d * 2 ^ Z.max 0 e <= n * 2 ^ Z.max 0 (- e).
Proof.
  intros Hn Hd He.
  pose proof (Z.log2_spec n Hn) as [Hn1 _].
  pose proof (Z.log2_spec d Hd) as [_ Hd2].
  pose proof (Z.log2_nonneg n) as Hln. pose proof (Z.log2_nonneg d) as Hld.
  destruct (Z_le_gt_dec e 0) as [Hneg | Hpos].
  - rewrite (Z.max_l 0 e), (Z.max_r 0 (- e)), Z.pow_0_r by lia.
    assert (H1 : 2 ^ Z.succ (Z.log2 d) <= 2 ^ (Z.log2 n + - e))
      by (apply Z.pow_le_mono_r; lia).
    rewrite Z.pow_add_r in H1 by lia.
    pose proof (Z.pow_pos_nonneg 2 (- e) ltac:(lia) ltac:(lia)). nia.
  - rewrite (Z.max_r 0 e), (Z.max_l 0 (- e)), Z.pow_0_r by lia.
    assert (H1 : 2 ^ (Z.succ (Z.log2 d) + e) <= 2 ^ Z.log2 n)
      by (apply Z.pow_le_mono_r; lia).
    rewrite Z.pow_add_r in H1 by lia.
    pose proof (Z.pow_pos_nonneg 2 e ltac:(lia) ltac:(lia)). nia.
Qed.

(** Rounding to 53 bits does not cross a power of two. *)
Lemma round53_bounds n d k :
  0 < n -> 0 < d -> 0 <= k ->
  (n <= d * 2 ^ k -> fnum (round53 n d) <= fden (round53 n d) * 2 ^ k)
  /\ (d * 2 ^ k <= n -> fden (round53 n d) * 2 ^ k <= fnum (round53 n d)).
Proof.
  intros Hn Hd Hk. unfold round53.
  rewrite (Z.abs_eq n) by lia. destruct (Z.eqb_spec n 0) as [| _]; [lia |].
  destruct (scaled n d (Z.log2 n - Z.log2 d - 53)) as [n0 d0].
  set (e := if 2 ^ 53 <=? n0 / d0 then _ else _).
  assert (He : e <= Z.log2 n - Z.log2 d - 52) by (subst e; destruct (_ <=? _); lia).
  pose proof (round53_exponent n d e Hn Hd He) as Hnorm.
  rewrite (scaled_eq n d e).
  set (P := 2 ^ Z.max 0 (- e)) in *. set (Q := 2 ^ Z.max 0 e) in *.
  assert (HP : 0 < P) by apply pow2_pos. assert (HQ : 0 < Q) by apply pow2_pos.
  rewrite Z.sgn_pos by lia. rewrite Z.mul_1_l.
  set (m := round_half_even (n * P) (d * Q)).
  rewrite fnum_eq, fden_eq. cbn [mant expo]. fold P Q.
  assert (Hm1 : 1 <= m) by (apply round_half_even_ge; lia).
  pose proof (Z.pow_pos_nonneg 2 k ltac:(lia) Hk) as Hpk.
  destruct (Z_le_gt_dec e 0) as [Hneg | Hpos].
  - assert (HQ1 : Q = 1).
    { subst Q. rewrite (Z.max_l 0 e) by lia. reflexivity. }
    rewrite HQ1 in *. split; intros Hb.
    + assert (m <= P * 2 ^ k) by (apply round_half_even_le; nia). lia.
    + assert (P * 2 ^ k <= m) by (apply round_half_even_ge; nia). lia.
  - assert (HP1 : P = 1).
    { subst P. rewrite (Z.max_l 0 (- e)) by lia. reflexivity. }
    assert (HQe : Q = 2 ^ e).
    { subst Q. rewrite (Z.max_r 0 e) by lia. reflexivity. }
    rewrite HP1 in *. split; intros Hb.
    + assert (Hek : e <= k).
      { apply (Z.pow_le_mono_r_iff 2); [lia | lia |]. rewrite <- HQe. nia. }
      assert (Hsplit : 2 ^ k = Q * 2 ^ (k - e)).
      { rewrite HQe, <- Z.pow_add_r by lia. f_equal. lia. }
      assert (m <= 2 ^ (k - e)) by (apply round_half_even_le; nia).
      rewrite Hsplit. nia.
    + destruct (Z_le_gt_dec e k) as [Hek | Hek].
      * assert (Hsplit : 2 ^ k = Q * 2 ^ (k - e)).
        { rewrite HQe, <- Z.pow_add_r by lia. f_equal. lia. }
        assert (2 ^ (k - e) <= m) by (apply round_half_even_ge; nia).
        rewrite Hsplit. nia.
      * assert (2 ^ k <= Q)
          by (rewrite HQe; apply Z.pow_le_mono_r; lia).
        nia.
Qed.

End FloatBounds.

Section PrintedRange.

Import Float64.

Lemma unit_pow z : 0 <= z -> unit ^ z = 2 ^ (10 * z).
Proof. intros Hz. unfold unit. change 1024 with (2 ^ 10). rewrite Z.pow_mul_r; lia. Qed.

(** A power of two converts exactly. *)
Lemma of_int64_pow2 j : 0 <= j -> fnum (of_int64 (2 ^ j)) = fden (of_int64 (2 ^ j)) * 2 ^ j.
Proof.
  intros Hj. pose proof (Z.pow_pos_nonneg 2 j ltac:(lia) Hj) as Hp.
  destruct (round53_bounds (2 ^ j) 1 j Hp ltac:(lia) Hj) as [Hle Hge].
  unfold of_int64. specialize (Hle ltac:(lia)). specialize (Hge ltac:(lia)). lia.
Qed.

Lemma div_eq x y :
  div x y = round53 (Z.sgn (fnum y) * fnum x * fden y) (fden x * Z.abs (fnum y)).
Proof.
  unfold div, fnum, fden.
  destruct (scaled (mant x) 1 (- expo x)), (scaled (mant y) 1 (- expo y)). reflexivity.
Qed.

Lemma tenths_eq x :
  0 <= mant x -> tenths x = round_half_even (10 * fnum x) (fden x).
Proof.
  intros Hx. unfold tenths. rewrite scaled_eq, fnum_eq, fden_eq.
  rewrite Z.abs_eq, Z.opp_involutive by lia. f_equal; lia.
Qed.

(** The quotient of a value between [2 ^ j] and [2 ^ (j + 10)] by [2 ^ j],
    as [formatBytes] forms it, lies between 1 and 1024, and its tenths
    between 10 and 10240. *)
Lemma scaled_value_range b j :
  0 <= j -> 2 ^ j <= b <= 2 ^ (j + 10) ->
  let x := div (of_int64 b) (of_int64 (2 ^ j)) in
  0 <= mant x /\ 10 <= tenths x <= 10240.
Proof.
  intros Hj [Hlo Hhi] x.
  pose proof (Z.pow_pos_nonneg 2 j ltac:(lia) Hj) as Hp.
  assert (Hb : 0 < b) by lia.
  destruct (round53_bounds b 1 j Hb ltac:(lia) Hj) as [_ Hxlo].
  destruct (round53_bounds b 1 (j + 10) Hb ltac:(lia) ltac:(lia)) as [Hxhi _].
  fold (of_int64 b) in Hxlo, Hxhi.
  specialize (Hxlo ltac:(lia)). specialize (Hxhi ltac:(lia)).
  pose proof (of_int64_pow2 j Hj) as Hy.
  pose proof (fden_pos (of_int64 b)) as Hdx.
  pose proof (fden_pos (of_int64 (2 ^ j))) as Hdy.
  set (nx := fnum (of_int64 b)) in *. set (dx := fden (of_int64 b)) in *.
  set (ny := fnum (of_int64 (2 ^ j))) in *. set (dy := fden (of_int64 (2 ^ j))) in *.
  assert (Hmx : 0 <= mant x).
  { subst x. apply div_nonneg; apply of_int64_nonneg; lia. }
  split; [exact Hmx |].
  assert (Hny : 0 < ny) by nia.
  assert (Hnx : 0 < nx) by nia.
  rewrite Z.pow_add_r in Hxhi by lia. change (2 ^ 10) with 1024 in Hxhi.
  assert (Hrange : fden x <= fnum x <= fden x * 1024).
  { subst x. rewrite div_eq. fold nx dx ny dy.
    rewrite (Z.sgn_pos ny Hny), (Z.abs_eq ny), Z.mul_1_l by lia.
    assert (Hn : 0 < nx * dy) by nia. assert (Hd : 0 < dx * ny) by nia.
    destruct (round53_bounds (nx * dy) (dx * ny) 0 Hn Hd ltac:(lia)) as [_ Hge].
    destruct (round53_bounds (nx * dy) (dx * ny) 10 Hn Hd ltac:(lia)) as [Hle _].
    change (2 ^ 10) with 1024 in Hle. rewrite Z.pow_0_r in Hge.
    specialize (Hge ltac:(nia)). specialize (Hle ltac:(nia)). lia. }
  pose proof (fden_pos x) as Hdpos.
  rewrite (tenths_eq x Hmx). split.
  - apply round_half_even_ge; lia.
  - apply round_half_even_le; lia.
Qed.

Lemma length_append (s1 s2 : string) :
  String.length (s1 ++ s2) = (String.length s1 + String.length s2)%nat.
Proof. induction s1 as [|c s1 IH]; cbn; [reflexivity | rewrite IH; reflexivity]. Qed.

(** The decimal of a number up to 1024 has at most four digits. *)
Lemma digits_upto_1024 z :
  0 <= z <= 1024 -> (String.length (string_of_Z z) <= 4)%nat.
Proof.
  intros Hz.
  assert (Hall : forallb (fun n => (String.length (string_of_Z (Z.of_nat n)) <=? 4)%nat)
                   (seq 0 1025) = true) by (vm_compute; reflexivity).
  rewrite forallb_forall in Hall.
  specialize (Hall (Z.to_nat z)). rewrite Z2Nat.id in Hall by lia.
  apply Nat.leb_le, Hall, in_seq. lia.
Qed.

(** What [formatBytes] prints from 1024 on, with the range of the number. *)
Lemma formatBytes_large b :
  unit <= b <= max_int64 ->
  exists exp c whole tenth,
    0 <= exp <= 5 /\ index_string suffixes exp = Some c
    /\ 0 <= whole <= 1024 /\ 0 <= tenth <= 9
    /\ 10 <= 10 * whole + tenth <= 10240
    /\ String.length (string_of_Z tenth) = 1%nat
    /\ formatBytes b
       = Some (string_of_Z whole ++ "." ++ string_of_Z tenth
                 ++ " " ++ String c "B")%string.
Proof.
  intros Hb.
  destruct (scale_of_int64 b Hb) as (exp & Hexp & Hbounds & Hloop).
  destruct (index_suffixes exp Hexp) as [c Hc].
  rewrite !unit_pow in Hbounds by lia.
  replace (10 * (exp + 2)) with (10 * (exp + 1) + 10) in Hbounds by lia.
  destruct (scaled_value_range b (10 * (exp + 1)) ltac:(lia) ltac:(lia))
    as [Hmant Htenths].
  rewrite <- unit_pow in Hmant, Htenths by lia.
  set (x := div (of_int64 b) (of_int64 (unit ^ (exp + 1)))) in *.
  destruct (format_1f_shape x Hmant) as (whole & tenth & Hw & Ht & Hsum & Hlen & Hfmt).
  exists exp, c, whole, tenth.
  split; [exact Hexp |]. split; [exact Hc |]. split; [lia |]. split; [exact Ht |].
  split; [lia |]. split; [exact Hlen |].
  unfold formatBytes. destruct (Z.ltb_spec b unit); [lia |].
  rewrite Hloop, Hc. fold x. rewrite Hfmt, !append_assoc. reflexivity.
Qed.

(** X13. For [b >= 1024] the number [formatBytes] prints lies between 1.0 and
    1024.0: the suffix is the largest unit that does not exceed [b]. *)
Theorem formatBytes_prints_between_1_and_1024 b :
  unit <= b <= max_int64 ->
  exists c whole tenth,
    formatBytes b
    = Some (string_of_Z whole ++ "." ++ string_of_Z tenth ++ " " ++ String c "B")%string
    /\ 0 <= tenth <= 9 /\ 10 <= 10 * whole + tenth <= 10240.
Proof.
  intros Hb.
  destruct (formatBytes_large b Hb)
    as (exp & c & whole & tenth & _ & _ & _ & Ht & Hrange & _ & Heq).
  exists c, whole, tenth. auto.
Qed.

(** X14. For a size that is not negative [formatBytes] prints at most nine
    characters. *)
Theorem formatBytes_width b :
  0 <= b <= max_int64 ->
  exists s, formatBytes b = Some s /\ (String.length s <= 9)%nat.
Proof.
  intros [Hlo Hhi]. destruct (Z_lt_le_dec b unit) as [Hsmall | Hlarge].
  - exists (string_of_Z b ++ " B")%string. split.
    + unfold formatBytes. destruct (Z.ltb_spec b unit); [reflexivity | lia].
    + rewrite length_append. cbn [String.length].
      pose proof (digits_upto_1024 b ltac:(unfold unit in *; lia)). lia.
  - destruct (formatBytes_large b (conj Hlarge Hhi))
      as (exp & c & whole & tenth & _ & _ & Hw & _ & _ & Hlen & Heq).
    eexists. split; [exact Heq |].
    rewrite !length_append, Hlen. cbn [String.length].
    pose proof (digits_upto_1024 whole Hw). lia.
Qed.

End PrintedRange.

(* ===================================================================== *)
(** * What [main] prints and when it fails *)
(* ===================================================================== *)

Section Report.

Lemma length_spaces n : String.length (spaces n) = n.
Proof. unfold spaces. induction n as [|n IH]; cbn; [reflexivity | rewrite IH; reflexivity]. Qed.

Lemma length_padRight width s :
  (String.length s <= width)%nat -> String.length (padRight width s) = width.
Proof.
  intros Hs. unfold padRight. rewrite length_append, length_spaces. lia.
Qed.

Lemma entryType_length e : (String.length (entryType e) <= 6)%nat.
Proof. unfold entryType. destruct (String.eqb (Type_ e) "file"); cbn; lia. Qed.

(** X15. The columns of an entry line line up: for a size that is not negative
    the type fills exactly 6 characters and the formatted size exactly 15,
    so the name always starts after 23 characters. *)
Theorem entryLine_columns e :
  0 <= Size e <= max_int64 ->
  exists sz,
    formatBytes (Size e) = Some sz
    /\ entryLine e
       = Some (padRight 6 (entryType e) ++ " " ++ padRight 15 sz ++ " "
                 ++ Name e ++ newline)%string
    /\ String.length (padRight 6 (entryType e)) = 6%nat
    /\ String.length (padRight 15 sz) = 15%nat.
Proof.
  intros Hsize.
  assert (Hwidth : exists sz, formatBytes (Size e) = Some sz
                              /\ (String.length sz <= 15)%nat).
  { destruct Hsize as [Hlo Hhi].
    destruct (Z_lt_le_dec (Size e) unit) as [Hsmall | Hlarge].
    - exists (string_of_Z (Size e) ++ " B")%string. split.
      + unfold formatBytes. destruct (Z.ltb_spec (Size e) unit); [reflexivity | lia].
      + rewrite length_append. cbn [String.length].
        pose proof (digits_upto_1024 (Size e) ltac:(unfold unit in *; lia)). lia.
    - destruct (formatBytes_large (Size e) (conj Hlarge Hhi))
        as (exp & c & whole & tenth & _ & _ & Hw & _ & _ & Hlen & Heq).
      eexists. split; [exact Heq |].
      rewrite !length_append, Hlen. cbn [String.length].
      pose proof (digits_upto_1024 whole Hw). lia. }
  destruct Hwidth as (sz & Hfmt & Hlen).
  exists sz. split; [exact Hfmt |]. split.
  - unfold entryLine. rewrite Hfmt. reflexivity.
  - split; apply length_padRight; [apply entryType_length | exact Hlen].
Qed.

(** On an [int64], [formatBytes] returns a string. *)
Lemma formatBytes_some b : in_int64 b -> exists s, formatBytes b = Some s.
Proof.
  intros [Hlo Hhi]. unfold formatBytes. destruct (Z.ltb_spec b unit) as [Hb | Hb].
  - eexists. reflexivity.
  - destruct (scale_of_int64 b (conj Hb Hhi)) as (exp & Hexp & _ & Hloop).
    destruct (index_suffixes exp Hexp) as [c Hc]. rewrite Hloop, Hc.
    eexists. reflexivity.
Qed.

Lemma entryLines_some es :
  Forall (fun e => in_int64 (Size e)) es -> exists s, entryLines es = Some s.
Proof.
  induction 1 as [|e es He _ [lines IH]]; cbn [entryLines]; [eexists; reflexivity |].
  unfold entryLine. destruct (formatBytes_some (Size e) He) as [sz Hsz].
  rewrite Hsz, IH. eexists. reflexivity.
Qed.

Context {sorter : SortSlice} {pool : Scheduler}.

(** X16. [main] ends in [log.Fatalf] in two cases only: the target cannot be
    [stat]ed, or it is a directory whose listing fails; the message and the
    error are those of the failing call. *)
Theorem main_fatal_iff w args msg e :
  main w args = Fatal msg e <->
  (Stat w (fst (parseArgs args)) = NotFound e
   /\ msg = "error accessing target"%string)
  \/ (exists root, Stat w (fst (parseArgs args)) = IsDirectory root
                   /\ snd (DirEntry.ReadDir root) = Some e
                   /\ msg = "error walking"%string).
Proof.
  unfold main. destruct (parseArgs args) as [target showAll]. cbn [fst].
  destruct (Stat w target) as [e0 | fileSize | root].
  - split.
    + intros H. injection H as <- <-. left. split; reflexivity.
    + intros [[H ->] | (root & H & _)]; [injection H as <-; reflexivity | discriminate].
  - split.
    + unfold printed. destruct (fileReport _ _); discriminate.
    + intros [[H _] | (root & H & _)]; discriminate.
  - assert (Herr : resErr (listRootWithSizes root showAll) = snd (DirEntry.ReadDir root)).
    { destruct (DirEntry.ReadDir root) as [ch [e1|]] eqn:Hread; cbn [snd].
      - rewrite (listRoot_unreadable showAll root ch e1 Hread). reflexivity.
      - rewrite (listRoot_eq showAll root ch Hread). reflexivity. }
    destruct (listRootWithSizes root showAll) as [[[es ts] tc] [e1|]];
      cbn [resErr] in Herr.
    + split.
      * intros H. injection H as <- <-. right. exists root. auto.
      * intros [[H _] | (root' & H & Hread & ->)]; [discriminate |].
        injection H as <-. rewrite <- Herr in Hread. injection Hread as <-.
        reflexivity.
    + split.
      * unfold printed. destruct (dirReport _ _ _ _); discriminate.
      * intros [[H _] | (root' & H & Hread & _)]; [discriminate |].
        injection H as <-. rewrite <- Herr in Hread. discriminate.
Qed.

(** X17. With sizes that are [int64] values, [main] never panics: no entry and
    no total drives [formatBytes] out of its suffix table. *)
Theorem main_never_panics w args :
  int64World w -> main w args <> Panicked.
Proof.
  intros Hw. unfold main. destruct (parseArgs args) as [target showAll].
  specialize (Hw target).
  destruct (Stat w target) as [e0 | fileSize | root]; [discriminate | |].
  - unfold fileReport. destruct (formatBytes_some fileSize Hw) as [sz ->].
    discriminate.
  - destruct (DirEntry.ReadDir root) as [ch [e|]] eqn:Hread.
    + rewrite (listRoot_unreadable showAll root ch e Hread). discriminate.
    + pose proof (scan_entries showAll root ch Hread) as Hperm.
      rewrite (listRoot_eq showAll root ch Hread) in *. cbn [resEntries] in Hperm.
      cbn [fst] in Hw.
      assert (Hsizes : Forall (fun e => in_int64 (Size e))
                         (sortSlice bySizeDesc (gathered showAll ch))).
      { apply Forall_forall. intros e He.
        apply (Permutation_in _ Hperm) in He.
        apply in_map_iff in He as (d & <- & Hd). apply filter_In in Hd as [Hd _].
        unfold entryOfChild. destruct (DirEntry.IsDir d).
        - apply wrap64_in_int64.
        - rewrite Forall_forall in Hw. apply (Hw d Hd). }
      unfold dirReport. destruct (entryLines_some _ Hsizes) as [lines ->].
      destruct (formatBytes_some _ (wrap64_in_int64 (codeTotalSize showAll root)))
        as [total ->].
      discriminate.
Qed.

(** X18. In the report of a scan an entry is tagged [DIR] exactly when the
    immediate child it stands for is a directory, and [FILE] otherwise. *)
Theorem entryType_of_listed_child root showAll e :
  In e (resEntries (listRootWithSizes root showAll)) ->
  exists d, In d (fst (DirEntry.ReadDir root))
            /\ DirEntry.Name d = Name e
            /\ entryType e = (if DirEntry.IsDir d then "DIR" else "FILE")%string.
Proof.
  intros Hin.
  destruct (DirEntry.ReadDir root) as [ch [err|]] eqn:Hread.
  - rewrite (listRoot_unreadable showAll root ch err Hread) in Hin. destruct Hin.
  - apply (Permutation_in _ (scan_entries showAll root ch Hread)) in Hin.
    apply in_map_iff in Hin as (d & <- & Hd). apply filter_In in Hd as [Hd _].
    exists d. split; [exact Hd |]. split; [symmetry; apply entryOfChild_Name |].
    unfold entryType, entryOfChild. destruct (DirEntry.IsDir d); reflexivity.
Qed.

End Report.

(* ===================================================================== *)
(** * Showing hidden entries *)
(* ===================================================================== *)

Section ShowAll.

Lemma excluded_true name : excluded true name = false.
Proof. reflexivity. Qed.

Lemma measureTree_showAll_mono leaf (p : Node -> bool) :
  (forall f, p f = true -> 0 <= leaf f) ->
  forall d, allFiles p d = true ->
            0 <= measureTree leaf false d <= measureTree leaf true d.
Proof.
  intros Hleaf.
  induction d as [name mode info | name lstat readdir children IH]
    using Node_ind_children; cbn [allFiles measureTree]; intros Hall;
    rewrite !excluded_true.
  - specialize (Hleaf _ Hall). destruct (excluded false name); lia.
  - assert (Hsum : 0 <= Zsum (map (measureTree leaf false) children)
                   <= Zsum (map (measureTree leaf true) children)).
    { induction IH as [|c cs Hc _ IHcs]; [cbn; lia |].
      cbn [forallb] in Hall. apply andb_prop in Hall as [Hc' Hcs'].
      rewrite !map_cons, !Zsum_cons. specialize (Hc Hc'). specialize (IHcs Hcs'). lia. }
    destruct (excluded false name); lia.
Qed.

Lemma measureRoot_showAll_mono topLeaf leaf (p : Node -> bool) root :
  (forall f, p f = true -> 0 <= topLeaf f /\ 0 <= leaf f) ->
  allFiles p root = true ->
  0 <= measureRoot topLeaf leaf false root <= measureRoot topLeaf leaf true root.
Proof.
  intros Hleaf. unfold measureRoot.
  destruct root as [name mode info | name lstat readdir ch];
    cbn [allFiles DirEntry.ReadDir fst]; [cbn; lia |].
  induction ch as [|c ch IH]; [cbn; lia |].
  cbn [forallb]. intros Hall. apply andb_prop in Hall as [Hc Hcs].
  rewrite !map_cons, !Zsum_cons. specialize (IH Hcs).
  assert (Hchild : 0 <= measureChild topLeaf leaf false c
                   <= measureChild topLeaf leaf true c).
  { unfold measureChild. rewrite excluded_true.
    destruct c as [cname cmode cinfo | cname cl cr cch];
      cbn [DirEntry.IsDir DirEntry.Name DirEntry.Lstat].
    - cbn [allFiles] in Hc. destruct (Hleaf _ Hc) as [Htop _].
      destruct (excluded false cname); lia.
    - pose proof (measureTree_showAll_mono leaf p
                    (fun f Hf => proj2 (Hleaf f Hf)) _ Hc) as Hmono.
      destruct (excluded false cname), cl; lia. }
  lia.
Qed.

Context {sorter : SortSlice} {pool : Scheduler}.

(** X19. Asking for hidden entries never lowers the totals: where every reported
    size is at least 0 and the totals of the whole tree fit Go's integers,
    [totalSize] and [totalCount] with [showAll] are at least what they are
    without it. *)
Theorem showAll_never_lowers_totals root :
  sizesNonneg root = true ->
  codeTotalSize true root <= max_int64 ->
  codeTotalCount true root <= max_int64 ->
  resTotalSize (listRootWithSizes root false) <= resTotalSize (listRootWithSizes root true)
  /\ resTotalCount (listRootWithSizes root false)
     <= resTotalCount (listRootWithSizes root true).
Proof.
  intros Hnonneg Hsize Hcount.
  destruct (DirEntry.ReadDir root) as [ch [e|]] eqn:Hread.
  - rewrite !(listRoot_unreadable _ root ch e Hread). cbn. lia.
  - rewrite !(listRoot_eq _ root ch Hread). cbn [resTotalSize resTotalCount].
    assert (Hs : 0 <= codeTotalSize false root <= codeTotalSize true root).
    { apply (measureRoot_showAll_mono infoSize walkedBytes
               (fun f => 0 <=? infoSize f)); [| exact Hnonneg].
      intros f Hf. apply Z.leb_le in Hf. unfold walkedBytes.
      destruct (DirEntry.IsSymlink f); lia. }
    assert (Hc : 0 <= codeTotalCount false root <= codeTotalCount true root).
    { apply (measureRoot_showAll_mono infoCount walkedCount (fun _ => true)).
      - intros f _. unfold walkedCount, infoCount.
        destruct (DirEntry.IsSymlink f), (DirEntry.Info f); lia.
      - clear. induction root as [name mode info | name lstat readdir children IH]
          using Node_ind_children; [reflexivity |].
        cbn [allFiles]. apply forallb_forall. rewrite Forall_forall in IH. exact IH. }
    rewrite !wrap64_small by (unfold in_int64, min_int64, max_int64 in *; lia).
    lia.
Qed.

End ShowAll.

(* ===================================================================== *)
(** * [formatBytes] below [2 ^ 53]: no rounding but the last *)
(* ===================================================================== *)

Section Exact.

Import Float64.

Lemma round_half_even_scale n d c :
  0 < d -> 0 < c -> round_half_even (n * c) (d * c) = round_half_even n d.
Proof.
  intros Hd Hc. unfold round_half_even.
  rewrite Z.div_mul_cancel_r, Z.mul_mod_distr_r by lia.
  destruct (Z.compare_spec (2 * (n mod d)) d);
    destruct (Z.compare_spec (2 * (n mod d * c)) (d * c)); try reflexivity; nia.
Qed.

Lemma round_half_even_exact d M : 0 < d -> round_half_even (d * M) d = M.
Proof.
  intros Hd. unfold round_half_even.
  rewrite (Z.mul_comm d M), Z.div_mul, Z.mod_mul by lia.
  destruct (Z.compare_spec (2 * 0) d); [lia | reflexivity | lia].
Qed.

(** A quotient that has 53 significant bits is not rounded. *)
Lemma round53_exact n d M t :
  0 < n -> 0 < d -> 0 <= t -> 2 ^ 52 <= M < 2 ^ 53 -> n * 2 ^ t = d * M ->
  round53 n d = mk M (- t).
Proof.
  intros Hn Hd Ht HM Heq.
  pose proof (Z.pow_pos_nonneg 2 t ltac:(lia) Ht) as Hpt.
  assert (Hlog : Z.log2 n + t = Z.log2 d + 52 \/ Z.log2 n + t = Z.log2 d + 53).
  { pose proof (Z.log2_mul_pow2 n t Hn Ht) as Hl. rewrite Heq in Hl.
    pose proof (Z.log2_spec d Hd) as [Hd1 Hd2].
    pose proof (Z.log2_nonneg d) as Hld.
    assert (Hlo : Z.log2 d + 52 <= Z.log2 (d * M)).
    { apply Z.log2_le_pow2; [nia |]. rewrite Z.pow_add_r by lia. nia. }
    assert (Hhi : Z.log2 (d * M) < Z.log2 d + 54).
    { apply Z.log2_lt_pow2; [nia |].
      replace (Z.log2 d + 54) with (Z.succ (Z.log2 d) + 53) by lia.
      rewrite Z.pow_add_r by lia. nia. }
    lia. }
  unfold round53. rewrite (Z.abs_eq n) by lia.
  destruct (Z.eqb_spec n 0) as [| _]; [lia |].
  rewrite !scaled_eq. cbv beta iota zeta.
  assert (He : (if 2 ^ 53 <=?
                   n * 2 ^ Z.max 0 (- (Z.log2 n - Z.log2 d - 53))
                   / (d * 2 ^ Z.max 0 (Z.log2 n - Z.log2 d - 53))
                then Z.log2 n - Z.log2 d - 53 + 1 else Z.log2 n - Z.log2 d - 53)
               = - t).
  { destruct Hlog as [Hlog | Hlog].
    - replace (Z.log2 n - Z.log2 d - 53) with (- (t + 1)) by lia.
      rewrite Z.opp_involutive, (Z.max_r 0 (t + 1)), (Z.max_l 0 (- (t + 1))) by lia.
      rewrite Z.pow_0_r, Z.mul_1_r, Z.pow_add_r, Z.pow_1_r by lia.
      replace (n * (2 ^ t * 2)) with (2 * M * d) by lia.
      rewrite Z.div_mul by lia.
      destruct (Z.leb_spec (2 ^ 53) (2 * M)); lia.
    - replace (Z.log2 n - Z.log2 d - 53) with (- t) by lia.
      rewrite Z.opp_involutive, (Z.max_r 0 t), (Z.max_l 0 (- t)) by lia.
      rewrite Z.pow_0_r, Z.mul_1_r, Heq, (Z.mul_comm d M), Z.div_mul by lia.
      destruct (Z.leb_spec (2 ^ 53) M); lia. }
  rewrite He, Z.opp_involutive, (Z.max_r 0 t), (Z.max_l 0 (- t)) by lia.
  rewrite Z.pow_0_r, Z.mul_1_r, Heq, round_half_even_exact, Z.sgn_pos by lia.
  f_equal. lia.
Qed.

(** An integer below [2 ^ 53] converts exactly. *)
Lemma of_int64_exact b :
  0 < b < 2 ^ 53 ->
  of_int64 b = mk (b * 2 ^ (52 - Z.log2 b)) (Z.log2 b - 52).
Proof.
  intros [Hlo Hhi].
  pose proof (Z.log2_spec b Hlo) as [Hb1 Hb2].
  pose proof (Z.log2_nonneg b) as Hl.
  assert (Hl52 : Z.log2 b <= 52) by (apply Z.log2_lt_pow2 in Hhi; lia).
  pose proof (Z.pow_pos_nonneg 2 (52 - Z.log2 b) ltac:(lia) ltac:(lia)) as Hp.
  assert (H52 : 2 ^ 52 = 2 ^ Z.log2 b * 2 ^ (52 - Z.log2 b)).
  { rewrite <- Z.pow_add_r by lia. f_equal. lia. }
  assert (H53 : 2 ^ 53 = 2 ^ Z.succ (Z.log2 b) * 2 ^ (52 - Z.log2 b)).
  { rewrite <- Z.pow_add_r by lia. f_equal. lia. }
  unfold of_int64.
  rewrite (round53_exact b 1 (b * 2 ^ (52 - Z.log2 b)) (52 - Z.log2 b));
    [f_equal; lia | lia | lia | lia | | lia].
  rewrite H52, H53. nia.
Qed.

(** Below [2 ^ 53] the digits printed are those of [b / 2 ^ j] itself,
    rounded once. *)
Lemma tenths_exact b j :
  0 <= j -> 2 ^ j <= b < 2 ^ 53 ->
  let x := div (of_int64 b) (of_int64 (2 ^ j)) in
  0 <= mant x /\ tenths x = round_half_even (10 * b) (2 ^ j).
Proof.
  intros Hj [Hlo Hhi] x.
  pose proof (Z.pow_pos_nonneg 2 j ltac:(lia) Hj) as Hpj.
  assert (Hb : 0 < b) by lia.
  pose proof (Z.log2_spec b Hb) as [Hb1 Hb2].
  pose proof (Z.log2_nonneg b) as Hl.
  assert (Hl52 : Z.log2 b <= 52) by (apply Z.log2_lt_pow2 in Hhi; lia).
  assert (Hjl : j <= Z.log2 b) by (apply Z.log2_le_pow2; lia).
  set (s := 52 - Z.log2 b) in *.
  pose proof (Z.pow_pos_nonneg 2 s ltac:(lia) ltac:(lia)) as Hps.
  assert (Hmx : 0 <= mant x).
  { subst x. apply div_nonneg; apply of_int64_nonneg; lia. }
  split; [exact Hmx |].
  assert (Hx : x = mk (b * 2 ^ s) (- (j + s))).
  { subst x. rewrite div_eq.
    pose proof (of_int64_pow2 j Hj) as Hy.
    pose proof (fden_pos (of_int64 (2 ^ j))) as Hdy.
    set (ny := fnum (of_int64 (2 ^ j))) in *. set (dy := fden (of_int64 (2 ^ j))) in *.
    rewrite (of_int64_exact b (conj Hb Hhi)). fold s.
    rewrite fnum_eq, fden_eq. cbn [mant expo].
    replace (Z.log2 b - 52) with (- s) by lia.
    rewrite Z.opp_involutive, (Z.max_l 0 (- s)), (Z.max_r 0 s), Z.pow_0_r, Z.mul_1_r by lia.
    assert (Hny : 0 < ny) by nia.
    rewrite (Z.sgn_pos ny Hny), (Z.abs_eq ny), Z.mul_1_l by lia.
    assert (H52 : 2 ^ 52 = 2 ^ Z.log2 b * 2 ^ s).
    { rewrite <- Z.pow_add_r by lia. f_equal. lia. }
    assert (H53 : 2 ^ 53 = 2 ^ Z.succ (Z.log2 b) * 2 ^ s).
    { rewrite <- Z.pow_add_r by lia. f_equal. lia. }
    apply round53_exact; [nia | nia | lia | rewrite H52, H53; nia |].
    rewrite Hy, Z.pow_add_r by lia. ring. }
  rewrite (tenths_eq x Hmx), Hx, fnum_eq, fden_eq. cbn [mant expo].
  rewrite Z.opp_involutive, (Z.max_l 0 (- (j + s))), (Z.max_r 0 (j + s)) by lia.
  rewrite Z.pow_0_r, Z.mul_1_r, Z.pow_add_r, Z.mul_assoc by lia.
  apply round_half_even_scale; lia.
Qed.

(** X20. Below [2 ^ 53] bytes (8 PiB) the floating-point arithmetic of
    [formatBytes] loses nothing: the number printed is [b / 1024 ^ (exp + 1)]
    rounded to one decimal, ties to even, at the exponent [exp] with
    [1024 ^ (exp + 1) <= b < 1024 ^ (exp + 2)]. *)
Theorem formatBytes_exact_below_2_53 b :
  unit <= b < 2 ^ 53 ->
  exists exp c,
    0 <= exp <= 4
    /\ unit ^ (exp + 1) <= b < unit ^ (exp + 2)
    /\ index_string suffixes exp = Some c
    /\ formatBytes b
       = Some (string_of_Z (round_half_even (10 * b) (unit ^ (exp + 1)) / 10)
                 ++ "."
                 ++ string_of_Z (round_half_even (10 * b) (unit ^ (exp + 1)) mod 10)
                 ++ " " ++ String c "B")%string.
Proof.
  intros [Hlo Hhi].
  assert (Hb : unit <= b <= max_int64) by (unfold max_int64; lia).
  destruct (scale_of_int64 b Hb) as (exp & Hexp & Hbounds & Hloop).
  destruct (index_suffixes exp Hexp) as [c Hc].
  assert (Hexp4 : exp <= 4).
  { destruct (Z_le_gt_dec exp 4) as [H | H]; [exact H | exfalso].
    assert (exp = 5) by lia. subst exp. cbn in Hbounds. lia. }
  exists exp, c. split; [lia |]. split; [exact Hbounds |]. split; [exact Hc |].
  rewrite unit_pow in * by lia.
  destruct (tenths_exact b (10 * (exp + 1)) ltac:(lia) ltac:(lia)) as [Hmant Htenths].
  unfold formatBytes. destruct (Z.ltb_spec b unit); [lia |].
  rewrite Hloop, Hc. unfold format_1f.
  destruct (Z.ltb_spec
              (mant (div (of_int64 b) (of_int64 (2 ^ (10 * (exp + 1)))))) 0); [lia |].
  rewrite Htenths, !append_assoc. reflexivity.
Qed.

End Exact.

(* ===================================================================== *)
(** * The further theorems at concrete inputs *)
(* ===================================================================== *)

Lemma parseArgs_target_witness :
  Forall (fun a => a = "-a"%string \/ a = ""%string) ["-a"; ""]%string
  /\ fst (parseArgs (["-a"; ""] ++ "docs" :: ["src"; "-a"]))%string = "docs"%string.
Proof.
  assert (H : Forall (fun a => a = "-a"%string \/ a = ""%string) ["-a"; ""]%string).
  { apply Forall_cons; [left; reflexivity |].
    apply Forall_cons; [right; reflexivity | apply Forall_nil]. }
  split; [exact H |].
  apply (proj2 (parseArgs_target ["-a"; ""]%string "docs"%string
                  ["src"; "-a"]%string H)); discriminate.
Defined.

Lemma sizeDir_children_order_witness :
  Permutation [File "a" ModeRegular (Some 1); File "b" ModeSymlink None]
              [File "b" ModeSymlink None; File "a" ModeRegular (Some 1)]
  /\ sizeDir (Dir "d" None None
                [File "a" ModeRegular (Some 1); File "b" ModeSymlink None]) true
     = sizeDir (Dir "d" None None
                  [File "b" ModeSymlink None; File "a" ModeRegular (Some 1)]) true.
Proof.
  assert (H : Permutation [File "a" ModeRegular (Some 1); File "b" ModeSymlink None]
                [File "b" ModeSymlink None; File "a" ModeRegular (Some 1)])
    by apply perm_swap.
  split; [exact H |].
  exact (sizeDir_children_order "d" None None _ _ true H).
Defined.

Lemma listRoot_one_entry_per_child_witness :
  DirEntry.ReadDir scenario
  = ([File ".hidden.txt" ModeRegular (Some 50); File "a.txt" ModeRegular (Some 100);
      Dir "sub" None None
        [File ".subhidden" ModeRegular (Some 10); File "b.txt" ModeRegular (Some 200)]],
     None)
  /\ List.length (resEntries (@listRootWithSizes insertionSorter lastFirst scenario false))
     = 2%nat.
Proof.
  split; [reflexivity |].
  exact (proj1 (proj2 (@listRoot_one_entry_per_child insertionSorter lastFirst false
                         scenario _ eq_refl))).
Defined.

Lemma listRoot_entries_are_shown_children_witness :
  In (mkEntry "sub" 200 "dir")
     (resEntries (@listRootWithSizes insertionSorter inOrder scenario false))
  /\ excluded false "sub" = false.
Proof.
  assert (H : In (mkEntry "sub" 200 "dir")
                (resEntries (@listRootWithSizes insertionSorter inOrder scenario false)))
    by (left; reflexivity).
  split; [exact H |].
  exact (proj1 (@listRoot_entries_are_shown_children insertionSorter inOrder false
                  scenario _ H)).
Defined.

Lemma listRoot_children_order_witness :
  Permutation [File "a" ModeRegular (Some 1); Dir "d" None None []]
              [Dir "d" None None []; File "a" ModeRegular (Some 1)]
  /\ resTotalSize (@listRootWithSizes insertionSorter inOrder
                     (Dir "r" None None
                        [File "a" ModeRegular (Some 1); Dir "d" None None []]) false)
     = resTotalSize (@listRootWithSizes insertionSorter inOrder
                       (Dir "r" None None
                          [Dir "d" None None []; File "a" ModeRegular (Some 1)]) false).
Proof.
  assert (H : Permutation [File "a" ModeRegular (Some 1); Dir "d" None None []]
                [Dir "d" None None []; File "a" ModeRegular (Some 1)])
    by apply perm_swap.
  split; [exact H |].
  exact (proj1 (@listRoot_children_order insertionSorter inOrder false "r" None _ _ H)).
Defined.

Lemma listRoot_with_one_more_file_witness :
  excluded false "new.txt" = false
  /\ resTotalSize (@listRootWithSizes insertionSorter inOrder
                     (Dir "r" None None
                        ([File "a" ModeRegular (Some 1)]
                           ++ File "new.txt" ModeRegular (Some 7) :: [])) false)
     = wrap64 (resTotalSize (@listRootWithSizes insertionSorter inOrder
                               (Dir "r" None None ([File "a" ModeRegular (Some 1)] ++ []))
                               false) + 7).
Proof.
  split; [reflexivity |].
  exact (proj1 (@listRoot_with_one_more_file insertionSorter inOrder false "r" None
                  [File "a" ModeRegular (Some 1)] [] "new.txt"%string ModeRegular 7
                  eq_refl)).
Defined.

Lemma showAll_never_lowers_totals_witness :
  sizesNonneg scenario = true
  /\ codeTotalSize true scenario <= max_int64
  /\ codeTotalCount true scenario <= max_int64
  /\ resTotalSize (@listRootWithSizes insertionSorter inOrder scenario false)
     <= resTotalSize (@listRootWithSizes insertionSorter inOrder scenario true).
Proof.
  assert (H1 : sizesNonneg scenario = true) by reflexivity.
  assert (H2 : codeTotalSize true scenario <= max_int64) by (vm_compute; discriminate).
  assert (H3 : codeTotalCount true scenario <= max_int64) by (vm_compute; discriminate).
  split; [exact H1 |]. split; [exact H2 |]. split; [exact H3 |].
  exact (proj1 (@showAll_never_lowers_totals insertionSorter inOrder scenario H1 H2 H3)).
Defined.

Lemma formatBytes_prints_between_1_and_1024_witness :
  unit <= 1048575 <= max_int64
  /\ exists c whole tenth,
       formatBytes 1048575
       = Some (string_of_Z whole ++ "." ++ string_of_Z tenth ++ " " ++ String c "B")%string
       /\ 0 <= tenth <= 9 /\ 10 <= 10 * whole + tenth <= 10240.
Proof.
  assert (H : unit <= 1048575 <= max_int64) by (unfold unit, max_int64; lia).
  split; [exact H |].
  exact (formatBytes_prints_between_1_and_1024 1048575 H).
Defined.

Lemma formatBytes_width_witness :
  0 <= max_int64 <= max_int64
  /\ exists s, formatBytes max_int64 = Some s /\ (String.length s <= 9)%nat.
Proof.
  assert (H : 0 <= max_int64 <= max_int64) by (unfold max_int64; lia).
  split; [exact H |].
  exact (formatBytes_width max_int64 H).
Defined.

Lemma formatBytes_exact_below_2_53_witness :
  unit <= 1536 < 2 ^ 53
  /\ exists exp c,
       0 <= exp <= 4
       /\ unit ^ (exp + 1) <= 1536 < unit ^ (exp + 2)
       /\ index_string suffixes exp = Some c
       /\ formatBytes 1536
          = Some (string_of_Z (Float64.round_half_even (10 * 1536) (unit ^ (exp + 1)) / 10)
                    ++ "."
                    ++ string_of_Z
                         (Float64.round_half_even (10 * 1536) (unit ^ (exp + 1)) mod 10)
                    ++ " " ++ String c "B")%string.
Proof.
  assert (H : unit <= 1536 < 2 ^ 53) by (unfold unit; lia).
  split; [exact H |].
  exact (formatBytes_exact_below_2_53 1536 H).
Defined.

Lemma entryLine_columns_witness :
  0 <= Size (mkEntry "projects" 225968128 "dir") <= max_int64
  /\ exists sz,
       formatBytes 225968128 = Some sz
       /\ String.length (padRight 15 sz) = 15%nat.
Proof.
  assert (H : 0 <= Size (mkEntry "projects" 225968128 "dir") <= max_int64)
    by (cbn; unfold max_int64; lia).
  split; [exact H |].
  destruct (entryLine_columns (mkEntry "projects" 225968128 "dir") H)
    as (sz & Hfmt & _ & _ & Hlen).
  exists sz. split; [exact Hfmt | exact Hlen].
Defined.

Lemma main_never_panics_witness :
  int64World sampleWorld
  /\ @main insertionSorter inOrder sampleWorld ["dir"]%string <> Panicked.
Proof.
  assert (H : int64World sampleWorld).
  { intros path. unfold sampleWorld. cbn [Stat].
    destruct (String.eqb path "dir").
    - unfold scenario. cbn [DirEntry.ReadDir fst].
      repeat (apply Forall_cons;
              [unfold in_int64, infoSize, min_int64, max_int64; cbn; lia |]).
      apply Forall_nil.
    - destruct (String.eqb path "notes.txt"); [| exact I].
      unfold in_int64, min_int64, max_int64. lia. }
  split; [exact H |].
  exact (@main_never_panics insertionSorter inOrder sampleWorld ["dir"]%string H).
Defined.

Lemma entryType_of_listed_child_witness :
  In (mkEntry "a.txt" 100 "file")
     (resEntries (@listRootWithSizes insertionSorter inOrder scenario false))
  /\ exists d, In d (fst (DirEntry.ReadDir scenario))
               /\ DirEntry.Name d = "a.txt"%string
               /\ entryType (mkEntry "a.txt" 100 "file")
                  = (if DirEntry.IsDir d then "DIR" else "FILE")%string.
Proof.
  assert (H : In (mkEntry "a.txt" 100 "file")
                (resEntries (@listRootWithSizes insertionSorter inOrder scenario false)))
    by (right; left; reflexivity).
  split; [exact H |].
  exact (@entryType_of_listed_child insertionSorter inOrder scenario false _ H).
Defined.

(* ===================================================================== *)
(** * The number [formatBytes] prints, in integers *)
(* ===================================================================== *)

Section ScaledValue.

Import Float64.

(** Rounding to the nearest integer errs by half a unit at most. *)
Lemma round_half_even_nearest n d :
  0 < d -> 2 * Z.abs (round_half_even n d * d - n) <= d.
Proof.
  intros Hd. unfold round_half_even.
  pose proof (Z.div_mod n d ltac:(lia)) as Hdm.
  pose proof (Z.mod_pos_bound n d Hd) as Hm.
  destruct (Z.compare_spec (2 * (n mod d)) d) as [Heq | Hlt | Hgt];
    [destruct (Z.even (n / d)) | |]; nia.
Qed.

(** Rounding half to even at a power of two, as one division. *)
Lemma round_half_even_floor n s :
  1 <= s ->
  round_half_even n (2 ^ s)
  = (n + 2 ^ (s - 1) - (if Z.even (n / 2 ^ s) then 1 else 0)) / 2 ^ s.
Proof.
  intros Hs. unfold round_half_even.
  pose proof (Z.pow_pos_nonneg 2 (s - 1) ltac:(lia) ltac:(lia)) as Hh.
  assert (Hd : 2 ^ s = 2 * 2 ^ (s - 1)).
  { rewrite <- Z.pow_succ_r by lia. f_equal. lia. }
  pose proof (Z.div_mod n (2 ^ s) ltac:(lia)) as Hdm.
  pose proof (Z.mod_pos_bound n (2 ^ s) ltac:(lia)) as Hm.
  set (q := n / 2 ^ s) in *. set (r := n mod 2 ^ s) in *. set (h := 2 ^ (s - 1)) in *.
  destruct (Z.compare_spec (2 * r) (2 ^ s)) as [Heq | Hlt | Hgt].
  - destruct (Z.even q).
    + apply (Z.div_unique _ _ q (r + h - 1)); lia.
    + apply (Z.div_unique _ _ (q + 1) 0); lia.
  - apply (Z.div_unique _ _ q (r + h - (if Z.even q then 1 else 0)));
      destruct (Z.even q); lia.
  - apply (Z.div_unique _ _ (q + 1) (r - h - (if Z.even q then 1 else 0)));
      destruct (Z.even q); lia.
Qed.

(** From [2 ^ 53] on the conversion rounds at the bit of weight
    [2 ^ (log2 b - 52)]. *)
Lemma of_int64_large b :
  2 ^ 53 <= b ->
  of_int64 b = mk (round_half_even b (2 ^ (Z.log2 b - 52))) (Z.log2 b - 52).
Proof.
  intros Hb. assert (Hpos : 0 < b) by lia.
  pose proof (Z.log2_spec b Hpos) as [Hb1 Hb2].
  assert (Hl : 53 <= Z.log2 b) by (apply Z.log2_le_pow2; lia).
  set (s := Z.log2 b - 52) in *.
  unfold of_int64, round53. rewrite (Z.abs_eq b) by lia.
  destruct (Z.eqb_spec b 0) as [| _]; [lia |].
  change (Z.log2 1) with 0. rewrite !scaled_eq. cbv beta iota zeta.
  replace (Z.log2 b - 0 - 53) with (s - 1) by (subst s; lia).
  rewrite (Z.max_l 0 (- (s - 1))), (Z.max_r 0 (s - 1)), Z.pow_0_r, Z.mul_1_r, Z.mul_1_l
    by lia.
  assert (Hq : 2 ^ 53 <= b / 2 ^ (s - 1)).
  { apply Z.div_le_lower_bound; [apply Z.pow_pos_nonneg; lia |].
    rewrite <- Z.pow_add_r by lia.
    replace (s - 1 + 53) with (Z.log2 b) by (subst s; lia). exact Hb1. }
  destruct (Z.leb_spec (2 ^ 53) (b / 2 ^ (s - 1))); [| lia].
  replace (s - 1 + 1) with s by lia.
  rewrite (Z.max_l 0 (- s)), (Z.max_r 0 s), Z.pow_0_r, Z.mul_1_r, Z.mul_1_l by lia.
  rewrite Z.sgn_pos, Z.mul_1_l by lia. reflexivity.
Qed.

(** From [2 ^ 53] on the digits printed are those of the rounded [b]
    divided by [2 ^ j], rounded once more. *)
Lemma tenths_rounded b j :
  2 ^ 53 <= b -> Z.log2 b - 52 + 1 <= j ->
  let x := div (of_int64 b) (of_int64 (2 ^ j)) in
  0 <= mant x
  /\ tenths x
     = round_half_even
         (10 * (2 ^ (Z.log2 b - 52) * round_half_even b (2 ^ (Z.log2 b - 52)))) (2 ^ j).
Proof.
  intros Hb Hj x. assert (Hpos : 0 < b) by lia.
  pose proof (Z.log2_spec b Hpos) as [Hb1 Hb2].
  assert (Hl : 53 <= Z.log2 b) by (apply Z.log2_le_pow2; lia).
  set (s := Z.log2 b - 52) in *.
  assert (Hs : 1 <= s) by (subst s; lia).
  pose proof (Z.pow_pos_nonneg 2 s ltac:(lia) ltac:(lia)) as Hps.
  assert (HL : 2 ^ Z.log2 b = 2 ^ s * 2 ^ 52).
  { rewrite <- Z.pow_add_r by lia. f_equal. subst s. lia. }
  assert (HL1 : 2 ^ Z.succ (Z.log2 b) = 2 ^ s * 2 ^ 53).
  { rewrite <- Z.pow_add_r by lia. f_equal. subst s. lia. }
  set (m := round_half_even b (2 ^ s)).
  assert (Hm : 2 ^ 52 <= m <= 2 ^ 53).
  { subst m. split; [apply round_half_even_ge | apply round_half_even_le]; lia. }
  assert (Hmx : 0 <= mant x).
  { subst x. apply div_nonneg; apply of_int64_nonneg; [lia |].
    apply Z.pow_nonneg. lia. }
  split; [exact Hmx |].
  pose proof (of_int64_pow2 j ltac:(lia)) as Hy.
  pose proof (fden_pos (of_int64 (2 ^ j))) as Hdy.
  pose proof (Z.pow_pos_nonneg 2 j ltac:(lia) ltac:(lia)) as Hpj.
  assert (Hjs : 2 ^ j = 2 ^ (j - s) * 2 ^ s).
  { rewrite <- Z.pow_add_r by lia. f_equal. lia. }
  assert (Hjs1 : 2 ^ j = 2 ^ (j - s - 1) * (2 * 2 ^ s)).
  { rewrite <- Z.pow_succ_r, <- Z.pow_add_r by lia. f_equal. lia. }
  pose proof (Z.pow_pos_nonneg 2 (j - s) ltac:(lia) ltac:(lia)) as Hpjs.
  pose proof (Z.pow_pos_nonneg 2 (j - s - 1) ltac:(lia) ltac:(lia)) as Hpjs1.
  assert (Hx : exists M t, 0 <= t /\ 2 ^ 52 <= M < 2 ^ 53
                           /\ x = mk M (- t) /\ M * 2 ^ j = m * 2 ^ s * 2 ^ t).
  { subst x. rewrite div_eq.
    set (ny := fnum (of_int64 (2 ^ j))) in *. set (dy := fden (of_int64 (2 ^ j))) in *.
    rewrite (of_int64_large b Hb). fold s m.
    rewrite fnum_eq, fden_eq. cbn [mant expo].
    rewrite (Z.max_r 0 s), (Z.max_l 0 (- s)), Z.pow_0_r, Z.mul_1_l by lia.
    assert (Hny : 0 < ny) by nia.
    rewrite (Z.sgn_pos ny Hny), (Z.abs_eq ny), Z.mul_1_l by lia.
    destruct (Z_lt_le_dec m (2 ^ 53)) as [Hlt | Hge].
    - exists m, (j - s). split; [lia |]. split; [lia |]. split.
      + apply round53_exact; [nia | lia | lia | lia |]. rewrite Hy, Hjs. ring.
      + rewrite Hjs. ring.
    - assert (Hm53 : m = 2 ^ 53) by lia.
      exists (2 ^ 52), (j - s - 1). split; [lia |]. split; [lia |]. split.
      + apply round53_exact; [nia | lia | lia | lia |].
        rewrite Hy, Hjs1, Hm53. change (2 ^ 53) with (2 * 2 ^ 52). ring.
      + rewrite Hjs1, Hm53. change (2 ^ 53) with (2 * 2 ^ 52). ring. }
  destruct Hx as (M & t & Ht & HM & Hx & Hval).
  pose proof (Z.pow_pos_nonneg 2 t ltac:(lia) Ht) as Hpt.
  rewrite (tenths_eq x Hmx), Hx, fnum_eq, fden_eq. cbn [mant expo].
  rewrite Z.opp_involutive, (Z.max_l 0 (- t)), (Z.max_r 0 t), Z.pow_0_r, Z.mul_1_r by lia.
  rewrite <- (round_half_even_scale (10 * M) (2 ^ t) (2 ^ j)) by lia.
  rewrite <- (round_half_even_scale (10 * (2 ^ s * m)) (2 ^ j) (2 ^ t)) by lia.
  f_equal; [nia | lia].
Qed.

Lemma nearestFloat64_large b :
  2 ^ 53 <= b ->
  nearestFloat64 b
  = 2 ^ (Z.log2 b - 52) * round_half_even b (2 ^ (Z.log2 b - 52)).
Proof.
  intros Hb. unfold nearestFloat64. destruct (Z.ltb_spec b (2 ^ 53)); [lia |].
  assert (Hl : 53 <= Z.log2 b) by (apply Z.log2_le_pow2; lia).
  cbv zeta. rewrite round_half_even_floor by lia. reflexivity.
Qed.

Lemma nearestFloat64_small b : b < 2 ^ 53 -> nearestFloat64 b = b.
Proof. intros Hb. unfold nearestFloat64. destruct (Z.ltb_spec b (2 ^ 53)); [reflexivity | lia]. Qed.

(** The conversion errs by one part in [2 ^ 53] at most. *)
Lemma nearestFloat64_error b :
  0 <= b -> Z.abs (nearestFloat64 b - b) * 2 ^ 53 <= b.
Proof.
  intros Hb. destruct (Z_lt_le_dec b (2 ^ 53)) as [Hlt | Hge].
  - rewrite (nearestFloat64_small b Hlt). replace (b - b) with 0 by lia. cbn. lia.
  - rewrite (nearestFloat64_large b Hge).
    assert (Hpos : 0 < b) by lia.
    pose proof (Z.log2_spec b Hpos) as [Hb1 _].
    assert (Hl : 53 <= Z.log2 b) by (apply Z.log2_le_pow2; lia).
    set (s := Z.log2 b - 52) in *.
    pose proof (Z.pow_pos_nonneg 2 s ltac:(lia) ltac:(lia)) as Hps.
    assert (HL : 2 ^ Z.log2 b = 2 ^ s * 2 ^ 52).
    { rewrite <- Z.pow_add_r by lia. f_equal. subst s. lia. }
    pose proof (round_half_even_nearest b (2 ^ s) Hps) as Hnear.
    change (2 ^ 53) with (2 * 2 ^ 52). nia.
Qed.

(** The digits [formatBytes] prints for [b], from the integer that
    [float64(b)] holds. *)
Lemma tenths_of_scaled b j :
  0 <= j -> 2 ^ j <= b < 2 ^ (j + 10) ->
  tenths (div (of_int64 b) (of_int64 (2 ^ j)))
  = round_half_even (10 * nearestFloat64 b) (2 ^ j).
Proof.
  intros Hj [Hlo Hhi].
  pose proof (Z.pow_pos_nonneg 2 j ltac:(lia) Hj) as Hpj.
  destruct (Z_lt_le_dec b (2 ^ 53)) as [Hlt | Hge].
  - rewrite (nearestFloat64_small b Hlt).
    apply (tenths_exact b j Hj (conj Hlo Hlt)).
  - rewrite (nearestFloat64_large b Hge).
    assert (Hl : Z.log2 b < j + 10) by (apply Z.log2_lt_pow2; lia).
    assert (H53 : 53 <= Z.log2 b) by (apply Z.log2_le_pow2; lia).
    apply (tenths_rounded b j Hge). lia.
Qed.

End ScaledValue.

(** C9. For a byte count [b] that is not negative, [formatBytes] prints [b]
    as a plain integer followed by [" B"] when [b < 1024]; otherwise it takes
    the suffix from [K, M, G, T, P, E] at the number [exp] of further
    divisions by 1024 that [b / 1024] bears, that is
    [1024 ^ (exp + 1) <= b < 1024 ^ (exp + 2)], and prints the scaled value
    with exactly one digit after the point: the number printed, in tenths,
    is [float64(b) / 1024 ^ (exp + 1)] rounded to the nearest tenth, ties to
    even, where [float64(b)] is [b] itself below [2 ^ 53] and within one
    part in [2 ^ 53] of [b] above; it lies between 1.0 and 1024.0. *)
Theorem formatBytes_scales_by_1024 b :
  0 <= b <= max_int64 ->
  (b < unit -> formatBytes b = Some (string_of_Z b ++ " B")%string)
  /\ (unit <= b ->
      exists exp c whole tenth,
        0 <= exp <= 5
        /\ unit ^ (exp + 1) <= b < unit ^ (exp + 2)
        /\ scaleLoop (b ÷ unit) unit 0 = (unit ^ (exp + 1), exp)
        /\ index_string "KMGTPE" exp = Some c
        /\ 0 <= whole /\ 0 <= tenth <= 9
        /\ String.length (string_of_Z tenth) = 1%nat
        /\ 10 * whole + tenth
           = Float64.tenths
               (Float64.div (Float64.of_int64 b)
                  (Float64.of_int64 (unit ^ (exp + 1))))
        /\ (b < 2 ^ 53 -> nearestFloat64 b = b)
        /\ Z.abs (nearestFloat64 b - b) * 2 ^ 53 <= b
        /\ 10 * whole + tenth
           = Float64.round_half_even (10 * nearestFloat64 b) (unit ^ (exp + 1))
        /\ 2 * Z.abs ((10 * whole + tenth) * unit ^ (exp + 1) - 10 * nearestFloat64 b)
           <= unit ^ (exp + 1)
        /\ 10 <= 10 * whole + tenth <= 10240
        /\ formatBytes b
           = Some (string_of_Z whole ++ "." ++ string_of_Z tenth
                     ++ " " ++ String c "B")%string).
Proof.
  intros [Hlo Hhi]. split.
  - intros Hsmall. unfold formatBytes.
    destruct (Z.ltb_spec b unit); [reflexivity | lia].
  - intros Hlarge.
    destruct (scale_of_int64 b (conj Hlarge Hhi)) as (exp & Hexp & Hb & Hloop).
    destruct (index_suffixes exp Hexp) as [c Hc].
    pose proof (unit_pow_nonneg (exp + 1) ltac:(lia)) as Hdiv.
    assert (Hb2 : 2 ^ (10 * (exp + 1)) <= b < 2 ^ (10 * (exp + 1) + 10)).
    { rewrite !unit_pow in Hb by lia.
      replace (10 * (exp + 2)) with (10 * (exp + 1) + 10) in Hb by lia. exact Hb. }
    pose proof (tenths_of_scaled b (10 * (exp + 1)) ltac:(lia) Hb2) as Hdigits.
    destruct (scaled_value_range b (10 * (exp + 1)) ltac:(lia) ltac:(lia))
      as [Hx Hrange].
    rewrite <- unit_pow in Hdigits, Hx, Hrange by lia.
    set (x := Float64.div (Float64.of_int64 b) (Float64.of_int64 (unit ^ (exp + 1))))
      in *.
    destruct (format_1f_shape x Hx) as (whole & tenth & Hw & Ht & Htenths & Hlen & Hfmt).
    exists exp, c, whole, tenth.
    split; [exact Hexp |]. split; [exact Hb |]. split; [exact Hloop |].
    split; [exact Hc |]. split; [exact Hw |]. split; [exact Ht |].
    split; [exact Hlen |]. split; [symmetry; exact Htenths |].
    split; [apply nearestFloat64_small |].
    split; [apply nearestFloat64_error; lia |].
    split; [rewrite <- Htenths; exact Hdigits |].
    split.
    { rewrite <- Htenths, Hdigits. apply round_half_even_nearest. exact Hdiv. }
    split; [rewrite <- Htenths; exact Hrange |].
    unfold formatBytes. destruct (Z.ltb_spec b unit); [lia |].
    rewrite Hloop, Hc.
    fold x. rewrite Hfmt, !append_assoc. reflexivity.
Qed.

Lemma formatBytes_scales_by_1024_witness :
  0 <= 1536 <= max_int64 /\ formatBytes 1536 = Some "1.5 KB"%string.
Proof.
  assert (H : 0 <= 1536 <= max_int64) by (unfold max_int64; lia).
  split; [exact H |].
  destruct (proj2 (formatBytes_scales_by_1024 1536 H) ltac:(unfold unit; lia))
    as (exp & c & whole & tenth & Hexp & Hb & _ & Hc & Hw & Ht & _ & _ & _ & _
        & Hval & _ & _ & Hfmt).
  assert (Hexp0 : exp = 0).
  { assert (Hcases : exp = 0 \/ exp = 1 \/ exp = 2 \/ exp = 3 \/ exp = 4 \/ exp = 5)
      by lia.
    destruct Hcases as [-> | [-> | [-> | [-> | [-> | ->]]]]];
      [reflexivity | | | | |]; vm_compute in Hb; destruct Hb as [Hb _];
      exfalso; apply Hb; reflexivity. }
  subst exp. vm_compute in Hc. injection Hc as <-.
  assert (Hr : Float64.round_half_even (10 * nearestFloat64 1536) (unit ^ (0 + 1)) = 15)
    by (vm_compute; reflexivity).
  rewrite Hr in Hval.
  assert (whole = 1) by lia. assert (tenth = 5) by lia. subst whole tenth.
  exact Hfmt.
Defined.
